(** * sliceheap: binary-heap operations on Go slices

    A shallow embedding of [sliceheap.go] (package [sliceheap]) and the
    properties of its five public operations [InitFunc], [PushFunc],
    [PopFunc], [RemoveFunc], [FixFunc] and of the two private loops [up]
    and [down].

    - A slice [[]T] is a [list T]; an index is a Go [int], modelled as a
      [Z] with the 64-bit two's-complement wrap-around written out.
    - An indexing expression [h[i]] panics when [i] is out of range; the
      operations therefore live in a small state-and-panic monad whose
      state is the contents of the slice.
    - The two unbounded [for] loops take a loop budget; the budget used by
      [up] and [down] is shown to suffice for every call of the public
      operations on a slice that fits an [int]. *)

From Stdlib Require Import ZArith Lia Bool Sorted Permutation.
From stdpp Require Import base list.

Local Open Scope Z_scope.
Declare Scope go_scope.
Delimit Scope go_scope with go.

(** ** Go's [int] *)

Module GoInt.

Definition int_bits : Z := 64.
Definition min_int : Z := - 2 ^ (int_bits - 1).
Definition max_int : Z := 2 ^ (int_bits - 1) - 1.

(** Two's-complement wrap-around of a mathematical integer. *)
Definition wrap (z : Z) : Z :=
  (z - min_int) mod 2 ^ int_bits + min_int.

Definition in_int (z : Z) : Prop := min_int <= z <= max_int.

Definition add (a b : Z) : Z := wrap (a + b).
Definition sub (a b : Z) : Z := wrap (a - b).
Definition mul (a b : Z) : Z := wrap (a * b).
(** Go's [/] truncates toward zero. *)
Definition quot (a b : Z) : Z := wrap (Z.quot a b).

End GoInt.

(** ** Slices, panics and the operations *)

Section Sliceheap.

Context {T : Type}.

(** [len(h)] *)
Definition slice_len (h : list T) : Z := Z.of_nat (length h).

(** The element at an [int] index, when the index is in range. *)
Definition at_index (h : list T) (i : Z) : option T :=
  if i <? 0 then None else h !! Z.to_nat i.

Definition set_index (h : list T) (i : Z) (x : T) : list T :=
  <[Z.to_nat i := x]> h.

(** What a call does to the slice it works on: it returns a value and
    leaves the slice as [h], it panics with the slice as [h], or the loop
    budget of the model is exhausted. *)
Inductive outcome (A : Type) : Type :=
| Returns (a : A) (h : list T)
| Panics (h : list T)
| OutOfFuel.
Global Arguments Returns {A} a h.
Global Arguments Panics {A} h.
Global Arguments OutOfFuel {A}.

Definition M (A : Type) : Type := list T -> outcome A.

Definition ret {A} (a : A) : M A := fun h => Returns a h.

Definition bind {A B} (c : M A) (k : A -> M B) : M B :=
  fun h =>
    match c h with
    | Returns a h' => k a h'
    | Panics h' => Panics h'
    | OutOfFuel => OutOfFuel
    end.

Notation "x <- c ; k" := (bind c (fun x => k))
  (at level 20, c at level 100, k at level 200, only parsing) : go_scope.
Notation "c ;; k" := (bind c (fun _ => k))
  (at level 100, k at level 200, only parsing, right associativity)
  : go_scope.
Local Open Scope go_scope.

(** [len(h)] *)
Definition len : M Z := fun h => Returns (slice_len h) h.

(** [h[i]] as a value: panics when [i] is out of range. *)
Definition index (i : Z) : M T :=
  fun h =>
    match at_index h i with
    | Some x => Returns x h
    | None => Panics h
    end.

(** [h[i] = x] *)
Definition assign (i : Z) (x : T) : M unit :=
  fun h =>
    match at_index h i with
    | Some _ => Returns tt (set_index h i x)
    | None => Panics h
    end.

(** [h[i], h[j] = h[j], h[i]]: both right-hand sides are read first. *)
Definition swap (i j : Z) : M unit :=
  x <- index j ; y <- index i ; assign i x ;; assign j y.

(** Reslicing to the first [n] elements, [h = h[:n]] (the capacity of
    the slice is not modelled: the operations only ever shrink). *)
Definition reslice (n : Z) : M unit :=
  fun h =>
    if (0 <=? n) && (n <=? slice_len h)
    then Returns tt (take (Z.to_nat n) h)
    else Panics h.

(** [h = append(h, x)] *)
Definition append (x : T) : M unit := fun h => Returns tt (h ++ [x]).

Variable less : T -> T -> bool.

(** The loop of [up]. *)
Fixpoint up_loop (fuel : nat) (j : Z) : M unit :=
  match fuel with
  | O => fun _ => OutOfFuel
  | S fuel =>
      let i := GoInt.quot (GoInt.sub j 1) 2 in
      if i =? j then ret tt
      else
        a <- index j ; b <- index i ;
        if negb (less a b) then ret tt
        else swap i j ;; up_loop fuel i
  end.

Definition up (j : Z) : M unit :=
  fun h => up_loop (S (length h)) j h.

(** The loop of [down]; it returns the final value of [i]. *)
Fixpoint down_loop (fuel : nat) (i n : Z) : M Z :=
  match fuel with
  | O => fun _ => OutOfFuel
  | S fuel =>
      let j1 := GoInt.add (GoInt.mul 2 i) 1 in
      if (j1 >=? n) || (j1 <? 0) then ret i
      else
        let j2 := GoInt.add j1 1 in
        j <- (if j2 <? n
              then a <- index j2 ; b <- index j1 ;
                   ret (if less a b then j2 else j1)
              else ret j1) ;
        a <- index j ; b <- index i ;
        if negb (less a b) then ret i
        else swap i j ;; down_loop fuel j n
  end.

Definition down (i0 n : Z) : M bool :=
  fun h => (i <- down_loop (S (length h)) i0 n ; ret (i >? i0)) h.

(** The loop of [InitFunc]: [for i := n/2 - 1; i >= 0; i--]. *)
Fixpoint init_loop (fuel : nat) (i n : Z) : M unit :=
  match fuel with
  | O => fun _ => OutOfFuel
  | S fuel =>
      if i >=? 0
      then down i n ;; init_loop fuel (GoInt.sub i 1) n
      else ret tt
  end.

Definition InitFunc : M unit :=
  fun h =>
    (n <- len ;
     init_loop (S (length h)) (GoInt.sub (GoInt.quot n 2) 1) n) h.

Definition PushFunc (x : T) : M unit :=
  append x ;; n <- len ; up (GoInt.sub n 1).

Definition PopFunc : M T :=
  l <- len ;
  let n := GoInt.sub l 1 in
  x <- index 0 ;
  y <- index n ;
  assign 0 y ;;
  reslice n ;;
  down 0 n ;;
  ret x.

Definition RemoveFunc (i : Z) : M T :=
  l <- len ;
  let n := GoInt.sub l 1 in
  x <- index i ;
  (if negb (n =? i)
   then y <- index n ;
        assign i y ;;
        moved <- down i n ;
        if negb moved then up i else ret tt
   else ret tt) ;;
  reslice n ;;
  ret x.

Definition FixFunc (i : Z) : M unit :=
  l <- len ;
  moved <- down i l ;
  if negb moved then up i else ret tt.

(** Calling [PopFunc] [k] times, collecting the returned values. *)
Fixpoint pop_n (k : nat) : M (list T) :=
  match k with
  | O => ret []
  | S k => x <- PopFunc ; xs <- pop_n k ; ret (x :: xs)
  end.

(** Pushing the values of [xs] one by one, in order. *)
Fixpoint push_all (xs : list T) : M unit :=
  match xs with
  | [] => ret tt
  | x :: xs => PushFunc x ;; push_all xs
  end.

(** Calling [RemoveFunc] at index 0 [k] times, as the test-suite
    does, collecting the returned values. *)
Fixpoint remove_first_n (k : nat) : M (list T) :=
  match k with
  | O => ret []
  | S k => x <- RemoveFunc 0 ; xs <- remove_first_n k ; ret (x :: xs)
  end.

(** Popping until the slice is empty. *)
Definition pop_all : M (list T) := fun h => pop_n (length h) h.

(** The caller overwrites [h[i]] with [v] and calls [FixFunc]. *)
Definition fix_after_write (i : Z) (v : T) : M unit :=
  assign i v ;; FixFunc i.

(** The caller removes the element at [i] and pushes [v]. *)
Definition remove_then_push (i : Z) (v : T) : M unit :=
  RemoveFunc i ;; PushFunc v.

(** Push the values of [xs] onto the slice, then pop everything. *)
Definition push_then_pop_all (xs : list T) : M (list T) :=
  push_all xs ;; pop_all.

(** [InitFunc] on the slice, then pop everything. *)
Definition heapify_then_pop_all : M (list T) :=
  InitFunc ;; pop_all.

(** Calling [RemoveFunc] at each index of [idx] in turn, collecting the
    returned values. *)
Fixpoint remove_each (idx : list Z) : M (list T) :=
  match idx with
  | [] => ret []
  | i :: idx => x <- RemoveFunc i ; xs <- remove_each idx ; ret (x :: xs)
  end.

(** Each index of [idx] is in range at the time of its call, on a slice
    that has [n] elements before the first call. *)
Fixpoint indices_in_range (idx : list Z) (n : Z) : Prop :=
  match idx with
  | [] => True
  | i :: idx => 0 <= i < n /\ indices_in_range idx (n - 1)
  end.

(** The test-suite's [verify(h, t, i)], with [less] for [cmp.Less]. The
    test handle [t] is the number of [t.Errorf] calls made so far: the
    call takes it as [errs] and returns it updated. A reported violation
    ends the call ([inl]); otherwise the call goes on to the right
    child ([inr]). *)
Fixpoint verify_from (fuel : nat) (i : Z) (errs : nat) : M nat :=
  match fuel with
  | O => fun _ => OutOfFuel
  | S fuel =>
      n <- len ;
      let j1 := GoInt.add (GoInt.mul 2 i) 1 in
      let j2 := GoInt.add (GoInt.mul 2 i) 2 in
      r <- (if j1 <? n
            then a <- index j1 ; b <- index i ;
                 if less a b then ret (inl (S errs))
                 else e <- verify_from fuel j1 errs ; ret (inr e)
            else ret (inr errs)) ;
      match r with
      | inl e => ret e
      | inr e =>
          if j2 <? n
          then a <- index j2 ; b <- index i ;
               if less a b then ret (S e)
               else verify_from fuel j2 e
          else ret e
      end
  end.

Definition verify (i : Z) : M nat :=
  fun h => verify_from (S (length h)) i 0 h.

(** ** The heap invariant and the ordering *)

(** The heap invariant of the slice: no child compares before its
    parent, for both children [2i+1] and [2i+2] of every index [i]. *)
Definition heap_inv (h : list T) : Prop :=
  forall i p, at_index h i = Some p ->
    forall c x, c = 2 * i + 1 \/ c = 2 * i + 2 ->
      at_index h c = Some x -> less x p = false.

(** The same on the child side, for the first [n] elements and for the
    parents from [m] on: this is what [down] and [up] work with. *)
Definition parent (c : Z) : Z := (c - 1) / 2.

Definition edge_ok (h : list T) (c : Z) : Prop :=
  forall x y, at_index h c = Some x -> at_index h (parent c) = Some y ->
    less x y = false.

Definition heap_from (m n : Z) (h : list T) : Prop :=
  forall c, 0 < c < n -> m <= parent c -> edge_ok h c.

(** A decision procedure for the heap invariant, in the manner of the
    test-suite's [verify]: every non-root index is checked against its
    parent. *)
Definition heap_check (h : list T) : bool :=
  forallb
    (fun c : nat =>
       match h !! c, h !! ((c - 1) / 2)%nat with
       | Some x, Some y => negb (less x y)
       | _, _ => true
       end)
    (seq 1 (length h - 1)).

(** A strict weak ordering: irreflexive, transitive, and with a
    transitive incomparability. *)
Record StrictWeakOrder : Prop := {
  less_irrefl : forall x, less x x = false;
  less_trans : forall x y z,
    less x y = true -> less y z = true -> less x z = true;
  less_incomp_trans : forall x y z,
    less x y = false -> less y x = false ->
    less y z = false -> less z y = false ->
    less x z = false
}.

(** Two values that the ordering does not tell apart. *)
Definition equiv_less (x y : T) : Prop :=
  less x y = false /\ less y x = false.

(** A sequence that is non-decreasing under [less]: no later value
    compares before an earlier one. *)
Definition nondecreasing (l : list T) : Prop :=
  forall (i j : nat) x y, (i < j)%nat ->
    l !! i = Some x -> l !! j = Some y -> less y x = false.

(** ** The two loops as relations on slice contents *)

(** The contents after [h[i], h[j] = h[j], h[i]]. *)
Definition exchange (h : list T) (i j : Z) : list T :=
  match at_index h j, at_index h i with
  | Some x, Some y => set_index (set_index h i x) j y
  | _, _ => h
  end.

(** The child that [down] compares [h[i]] with. *)
Definition child_choice (n : Z) (h : list T) (i j : Z) : Prop :=
  2 * i + 1 < n /\
  ((n <= 2 * i + 2 /\ j = 2 * i + 1) \/
   (2 * i + 2 < n /\
    exists a b, at_index h (2 * i + 2) = Some a /\
                at_index h (2 * i + 1) = Some b /\
                j = if less a b then 2 * i + 2 else 2 * i + 1)).

(** [sift_down n h i h' i']: the loop of [down], started at index [i]
    on contents [h] with bound [n], ends at index [i'] on contents
    [h']. *)
Inductive sift_down (n : Z) : list T -> Z -> list T -> Z -> Prop :=
| sift_down_leaf h i :
    n <= 2 * i + 1 -> sift_down n h i h i
| sift_down_stop h i j x y :
    child_choice n h i j ->
    at_index h j = Some x -> at_index h i = Some y ->
    less x y = false -> sift_down n h i h i
| sift_down_swap h i j x y h' i' :
    child_choice n h i j ->
    at_index h j = Some x -> at_index h i = Some y ->
    less x y = true ->
    sift_down n (exchange h i j) j h' i' ->
    sift_down n h i h' i'.

(** [sift_up h j h']: the loop of [up], started at index [j] on
    contents [h], ends on contents [h']. *)
Inductive sift_up : list T -> Z -> list T -> Prop :=
| sift_up_root h : sift_up h 0 h
| sift_up_stop h j x y :
    0 < j ->
    at_index h j = Some x -> at_index h (parent j) = Some y ->
    less x y = false -> sift_up h j h
| sift_up_swap h j x y h' :
    0 < j ->
    at_index h j = Some x -> at_index h (parent j) = Some y ->
    less x y = true ->
    sift_up (exchange h (parent j) j) (parent j) h' ->
    sift_up h j h'.

(** [init_sift n h i h']: the loop of [InitFunc], about to run [down]
    at index [i] on contents [h], ends on contents [h']. *)
Inductive init_sift (n : Z) : list T -> Z -> list T -> Prop :=
| init_sift_done h i : i < 0 -> init_sift n h i h
| init_sift_step h i h1 i1 h' :
    0 <= i -> sift_down n h i h1 i1 ->
    init_sift n h1 (i - 1) h' -> init_sift n h i h'.

(** What [RemoveFunc] and [FixFunc] do after [h[i]] was overwritten:
    [down], and [up] when [down] did not move. *)
Definition down_then_up (n : Z) (h : list T) (i : Z) (h' : list T) : Prop :=
  exists h2 i2, sift_down n h i h2 i2 /\
    ((i < i2 /\ h' = h2) \/ (i2 = i /\ sift_up h2 i h')).

(** ** Heaps with one local violation *)

(** The grandchildren condition at [i]: the children of [i] do not
    compare before the parent of [i]. *)
Definition grands_ok (m n : Z) (h : list T) (i : Z) : Prop :=
  forall c, 0 < c < n -> parent c = i -> 0 < i -> m <= parent i ->
    forall x y, at_index h c = Some x -> at_index h (parent i) = Some y ->
      less x y = false.

(** What [down] at [i] needs: only [h[i]] against its children may
    violate the invariant. *)
Definition down_ok (m n : Z) (h : list T) (i : Z) : Prop :=
  (forall c, 0 < c < n -> m <= parent c -> parent c <> i -> edge_ok h c) /\
  grands_ok m n h i.

(** What [up] at [j] needs: only [h[j]] against its parent may violate
    the invariant. *)
Definition up_ok (n : Z) (h : list T) (j : Z) : Prop :=
  (forall c, 0 < c < n -> c <> j -> edge_ok h c) /\
  grands_ok 0 n h j.

(** What [RemoveFunc] and [FixFunc] start from: [h[i]] may violate the
    invariant against its children or against its parent. *)
Definition both_ok (m n : Z) (h : list T) (i : Z) : Prop :=
  (forall c, 0 < c < n -> m <= parent c -> parent c <> i -> c <> i ->
     edge_ok h c) /\
  grands_ok m n h i.

(** ** Sequences of calls *)

(** One call of a public operation, as a caller makes it; [OpFix i v]
    is the assignment [h[i] = v] followed by [FixFunc] at [i]. *)
Inductive op : Type :=
| OpInit
| OpPush (x : T)
| OpPop
| OpRemove (i : Z)
| OpFix (i : Z) (v : T).

Definition run_op (o : op) : M unit :=
  match o with
  | OpInit => InitFunc
  | OpPush x => PushFunc x
  | OpPop => PopFunc ;; ret tt
  | OpRemove i => RemoveFunc i ;; ret tt
  | OpFix i v => fix_after_write i v
  end.

(** The calls of [os], one after the other; a panic ends the
    sequence. *)
Fixpoint run_ops (os : list op) : M unit :=
  match os with
  | [] => ret tt
  | o :: os => run_op o ;; run_ops os
  end.

(** ** The subtree that [verify] visits *)

(** [below i c]: index [c] is [i] or a descendant of [i] in the tree
    layout. *)
Inductive below (i : Z) : Z -> Prop :=
| below_self : below i i
| below_left c : below i c -> below i (2 * c + 1)
| below_right c : below i c -> below i (2 * c + 2).

(** The invariant, for the parents in the subtree of [i]. *)
Definition subtree_ok (h : list T) (i : Z) : Prop :=
  forall c p, below i c -> at_index h c = Some p ->
    forall d x, d = 2 * c + 1 \/ d = 2 * c + 2 ->
      at_index h d = Some x -> less x p = false.

End Sliceheap.


(** An ordering that looks at the first component only: a priority
    with a payload. *)
Definition by_key (a b : Z * Z) : bool := fst a <? fst b.

(** ** The operations at the natural ordering *)

(** The wrappers [Init], [Push], [Pop], [Remove] and [Fix] pass
    [cmp.Less] of the Go standard library to the [Func] variants. At an
    integer element type, [cmp.Less(x, y)] is [x < y]. *)
Module Ordered.

Definition cmp_Less (x y : Z) : bool := x <? y.

Definition Init : @M Z unit := InitFunc cmp_Less.

Definition Push (x : Z) : @M Z unit := PushFunc cmp_Less x.

Definition Pop : @M Z Z := PopFunc cmp_Less.

Definition Remove (i : Z) : @M Z Z := RemoveFunc cmp_Less i.

Definition Fix (i : Z) : @M Z unit := FixFunc cmp_Less i.

(** Calling [Pop] until the slice is empty, collecting the values. *)
Fixpoint Pop_n (k : nat) : @M Z (list Z) :=
  match k with
  | O => ret []
  | S k => bind Pop (fun x => bind (Pop_n k) (fun xs => ret (x :: xs)))
  end.

Definition Pop_all : @M Z (list Z) := fun h => Pop_n (length h) h.

(** Calling [Push] with each value of [xs] in turn. *)
Fixpoint Push_each (xs : list Z) : @M Z unit :=
  match xs with
  | [] => ret tt
  | x :: xs => bind (Push x) (fun _ => Push_each xs)
  end.

End Ordered.

(** * Facts about the model *)

(** Linear arithmetic with division and remainder by constants. *)
Ltac div_lia := Z.to_euclidean_division_equations; lia.

(** ** Integers that fit an [int] do not wrap *)

Lemma wrap_small z : GoInt.in_int z -> GoInt.wrap z = z.
Proof.
  unfold GoInt.in_int, GoInt.wrap, GoInt.min_int, GoInt.max_int, GoInt.int_bits.
  change (2 ^ (64 - 1)) with 9223372036854775808.
  change (2 ^ 64) with 18446744073709551616.
  intros Hz. rewrite Z.mod_small; lia.
Qed.

Lemma max_int_value : GoInt.max_int = 9223372036854775807.
Proof. reflexivity. Qed.

Lemma min_int_value : GoInt.min_int = -9223372036854775808.
Proof. reflexivity. Qed.

Lemma parent_lt c : 0 < c -> 0 <= parent c < c.
Proof. unfold parent. intros Hc. div_lia. Qed.

Lemma parent_children c i : 0 <= i -> (parent c = i /\ 0 < c) <-> (c = 2 * i + 1 \/ c = 2 * i + 2).
Proof. unfold parent. intros Hi. div_lia. Qed.

Section Indexing.

Context {T : Type}.
Implicit Types (h : list T) (i j k : Z) (x y : T).

Lemma at_index_Some h i x : at_index h i = Some x -> 0 <= i < slice_len h.
Proof.
  unfold at_index, slice_len. destruct (Z.ltb_spec i 0); [discriminate|].
  intros Hx%lookup_lt_Some. lia.
Qed.

Lemma at_index_is_Some h i : 0 <= i < slice_len h -> exists x, at_index h i = Some x.
Proof.
  unfold at_index, slice_len. intros Hi. destruct (Z.ltb_spec i 0); [lia|].
  destruct (lookup_lt_is_Some_2 h (Z.to_nat i)) as [x Hx]; [lia|eauto].
Qed.

Lemma at_index_None h i : ~ (0 <= i < slice_len h) -> at_index h i = None.
Proof.
  intros Hi. destruct (at_index h i) eqn:E; [|done].
  apply at_index_Some in E. lia.
Qed.

Lemma at_index_nat h (k : nat) : at_index h (Z.of_nat k) = h !! k.
Proof.
  unfold at_index. destruct (Z.ltb_spec (Z.of_nat k) 0); [lia|].
  by rewrite Nat2Z.id.
Qed.

Lemma slice_len_set h i x : slice_len (set_index h i x) = slice_len h.
Proof. unfold slice_len, set_index. by rewrite length_insert. Qed.

Lemma at_set_index_eq h i x :
  0 <= i < slice_len h -> at_index (set_index h i x) i = Some x.
Proof.
  unfold at_index, set_index, slice_len. intros Hi.
  destruct (Z.ltb_spec i 0); [lia|]. apply list_lookup_insert_eq. lia.
Qed.

Lemma at_set_index_ne h i k x :
  0 <= i -> i <> k -> at_index (set_index h i x) k = at_index h k.
Proof.
  unfold at_index, set_index. intros Hi Hne.
  destruct (Z.ltb_spec k 0); [done|]. apply list_lookup_insert_ne. lia.
Qed.

Lemma at_index_take h n k :
  0 <= k < n -> at_index (take (Z.to_nat n) h) k = at_index h k.
Proof.
  unfold at_index. intros Hk. destruct (Z.ltb_spec k 0); [lia|].
  apply lookup_take_lt. lia.
Qed.

Lemma slice_len_take h n :
  0 <= n <= slice_len h -> slice_len (take (Z.to_nat n) h) = n.
Proof. unfold slice_len. intros Hn. rewrite length_take_le; lia. Qed.

Lemma slice_eq h1 h2 : (forall k, at_index h1 k = at_index h2 k) -> h1 = h2.
Proof.
  intros H. apply list_eq. intros k. rewrite <- !at_index_nat. apply H.
Qed.

(** *** Exchanging two elements *)

Lemma exchange_len h i j : slice_len (exchange h i j) = slice_len h.
Proof.
  unfold exchange. destruct (at_index h j), (at_index h i); try done.
  by rewrite !slice_len_set.
Qed.

Lemma at_exchange_l h i j x :
  0 <= i < slice_len h -> at_index h j = Some x ->
  at_index (exchange h i j) i = Some x.
Proof.
  intros Hi Hj. unfold exchange. rewrite Hj.
  destruct (at_index_is_Some h i Hi) as [y Hy]. rewrite Hy.
  destruct (Z.eq_dec i j) as [->|Hne].
  - rewrite at_set_index_eq; [congruence|]. by rewrite slice_len_set.
  - apply at_index_Some in Hj.
    rewrite at_set_index_ne by lia. by apply at_set_index_eq.
Qed.

Lemma at_exchange_r h i j y :
  at_index h i = Some y -> 0 <= j < slice_len h ->
  at_index (exchange h i j) j = Some y.
Proof.
  intros Hi Hj. unfold exchange. rewrite Hi.
  destruct (at_index_is_Some h j Hj) as [x ->].
  apply at_set_index_eq. by rewrite slice_len_set.
Qed.

Lemma at_exchange_other h i j k :
  k <> i -> k <> j -> at_index (exchange h i j) k = at_index h k.
Proof.
  intros Hi Hj. unfold exchange.
  destruct (at_index h j) as [x|] eqn:Ej; [|done].
  destruct (at_index h i) as [y|] eqn:Ei; [|done].
  apply at_index_Some in Ej, Ei.
  rewrite !at_set_index_ne by lia. done.
Qed.

Lemma insert_head_perm (l : list T) (k : nat) x y :
  l !! k = Some x -> x :: <[k:=y]> l ≡ₚ y :: l.
Proof.
  revert k. induction l as [|z l IH]; intros [|k] Hk; simplify_eq/=.
  - apply perm_swap.
  - rewrite perm_swap. rewrite (IH _ Hk). apply perm_swap.
Qed.

Lemma insert_insert_perm (l : list T) (a b : nat) x y :
  l !! a = Some y -> l !! b = Some x -> <[b:=y]> (<[a:=x]> l) ≡ₚ l.
Proof.
  revert a b. induction l as [|z l IH]; intros [|a] [|b] Ha Hb; simplify_eq/=.
  - done.
  - by apply insert_head_perm.
  - symmetry. rewrite <- (insert_head_perm l a y x Ha).
    assert (<[a:=x]> l !! a = Some x) as Hx
      by (apply list_lookup_insert_eq; by apply lookup_lt_Some in Ha).
    done.
  - f_equiv. by apply IH.
Qed.

Lemma exchange_perm h i j : exchange h i j ≡ₚ h.
Proof.
  unfold exchange.
  destruct (at_index h j) as [x|] eqn:Ej; [|done].
  destruct (at_index h i) as [y|] eqn:Ei; [|done].
  unfold set_index. apply insert_insert_perm.
  - apply at_index_Some in Ei as Hi. rewrite <- at_index_nat, Z2Nat.id by lia. done.
  - apply at_index_Some in Ej as Hj. rewrite <- at_index_nat, Z2Nat.id by lia. done.
Qed.

End Indexing.

(** ** The loops compute the relations *)

Lemma left_child_int i :
  0 <= i <= GoInt.max_int ->
  let j1 := GoInt.add (GoInt.mul 2 i) 1 in
  (2 * i + 1 <= GoInt.max_int /\ j1 = 2 * i + 1) \/
  (GoInt.max_int < 2 * i + 1 /\ j1 < 0).
Proof.
  intros Hi j1. subst j1. revert Hi.
  unfold GoInt.add, GoInt.mul, GoInt.wrap, GoInt.min_int, GoInt.max_int, GoInt.int_bits.
  change (2 ^ (64 - 1)) with 9223372036854775808.
  change (2 ^ 64) with 18446744073709551616.
  intros Hi. div_lia.
Qed.

Lemma parent_int j :
  0 < j <= GoInt.max_int -> GoInt.quot (GoInt.sub j 1) 2 = parent j.
Proof.
  intros Hj. unfold GoInt.quot, GoInt.sub, parent.
  rewrite max_int_value in Hj.
  rewrite (wrap_small (j - 1)) by (unfold GoInt.in_int; rewrite max_int_value, min_int_value; lia).
  rewrite Z.quot_div_nonneg by lia.
  apply wrap_small. unfold GoInt.in_int; rewrite max_int_value, min_int_value. div_lia.
Qed.

Section Loops.

Context {T : Type} (less : T -> T -> bool).
Implicit Types (h : list T) (i j k n : Z) (x y : T).

Lemma index_Returns h i x : at_index h i = Some x -> index i h = Returns x h.
Proof. unfold index. by intros ->. Qed.

Lemma index_Panics h i : at_index h i = None -> index i h = Panics h.
Proof. unfold index. by intros ->. Qed.

Lemma swap_Returns h i j x y :
  at_index h j = Some x -> at_index h i = Some y ->
  swap i j h = Returns tt (exchange h i j).
Proof.
  intros Hj Hi. unfold swap, bind.
  rewrite (index_Returns _ _ _ Hj), (index_Returns _ _ _ Hi).
  unfold assign. rewrite Hi.
  apply at_index_Some in Hj as Hj'.
  destruct (at_index_is_Some (set_index h i x) j) as [z Hz];
    [by rewrite slice_len_set|].
  rewrite Hz. unfold exchange. by rewrite Hj, Hi.
Qed.

Lemma down_loop_sift fuel : forall h i n,
  0 <= i <= GoInt.max_int -> n <= slice_len h ->
  slice_len h <= GoInt.max_int -> (Z.to_nat (n - i) < fuel)%nat ->
  exists h' i', down_loop less fuel i n h = Returns i' h' /\
                sift_down less n h i h' i'.
Proof.
  induction fuel as [|fuel IH]; intros h i n Hi Hn Hmax Hfuel; [lia|].
  cbn [down_loop].
  destruct (Z.le_gt_cases n (2 * i + 1)) as [Hleaf|Hchild].
  { exists h, i. split; [|by apply sift_down_leaf].
    destruct (left_child_int i ltac:(lia)) as [[_ ->]|[_ Hneg]].
    - destruct (Z.geb_spec (2 * i + 1) n); [done|lia].
    - apply Z.ltb_lt in Hneg. rewrite Hneg, orb_true_r. done. }
  destruct (left_child_int i ltac:(lia)) as [[_ ->]|[? _]]; [|lia].
  destruct (Z.geb_spec (2 * i + 1) n); [lia|].
  destruct (Z.ltb_spec (2 * i + 1) 0); [lia|]. cbn [orb].
  assert (GoInt.add (2 * i + 1) 1 = 2 * i + 2) as ->.
  { unfold GoInt.add. rewrite wrap_small; [lia|].
    unfold GoInt.in_int. rewrite max_int_value in *. rewrite min_int_value. lia. }
  destruct (at_index_is_Some h i ltac:(lia)) as [y Hy].
  destruct (at_index_is_Some h (2 * i + 1) ltac:(lia)) as [b Hb].
  unfold bind at 1.
  assert (exists j, child_choice less n h i j /\
            (if 2 * i + 2 <? n
             then bind (index (2 * i + 2)) (fun a0 =>
                  bind (index (2 * i + 1)) (fun b0 =>
                  ret (if less a0 b0 then 2 * i + 2 else 2 * i + 1)))
             else ret (2 * i + 1)) h = Returns j h) as (j & Hj & ->).
  { destruct (Z.ltb_spec (2 * i + 2) n) as [Hlt|Hge].
    - destruct (at_index_is_Some h (2 * i + 2) ltac:(lia)) as [a Ha].
      exists (if less a b then 2 * i + 2 else 2 * i + 1). split.
      + split; [lia|]. right. split; [lia|]. eauto.
      + unfold bind. by rewrite (index_Returns _ _ _ Ha), (index_Returns _ _ _ Hb).
    - exists (2 * i + 1). split; [|done]. split; [lia|]. left. lia. }
  assert (i < j < n) as Hjn.
  { destruct Hj as (_ & [[_ ->]|(? & a & b' & _ & _ & ->)]); [lia|].
    destruct (less a b'); lia. }
  destruct (at_index_is_Some h j ltac:(lia)) as [x Hx].
  unfold bind at 1. rewrite (index_Returns _ _ _ Hx).
  unfold bind at 1. rewrite (index_Returns _ _ _ Hy).
  destruct (less x y) eqn:Hless; cbn [negb].
  - unfold bind. rewrite (swap_Returns _ _ _ _ _ Hx Hy).
    destruct (IH (exchange h i j) j n) as (h' & i' & Hrun & Hrel);
      [lia|by rewrite exchange_len|by rewrite exchange_len|lia|].
    exists h', i'. split; [done|]. by eapply sift_down_swap.
  - exists h, i. split; [done|]. by eapply sift_down_stop.
Qed.

Lemma up_loop_sift fuel : forall h j,
  0 <= j < slice_len h -> slice_len h <= GoInt.max_int ->
  (Z.to_nat j < fuel)%nat ->
  exists h', up_loop less fuel j h = Returns tt h' /\ sift_up less h j h'.
Proof.
  induction fuel as [|fuel IH]; intros h j Hj Hmax Hfuel; [lia|].
  cbn [up_loop].
  destruct (Z.eq_dec j 0) as [->|Hne].
  { exists h. split; [done|apply sift_up_root]. }
  rewrite parent_int by lia. pose proof (parent_lt j ltac:(lia)) as Hp.
  destruct (Z.eqb_spec (parent j) j); [lia|].
  destruct (at_index_is_Some h j ltac:(lia)) as [x Hx].
  destruct (at_index_is_Some h (parent j) ltac:(lia)) as [y Hy].
  unfold bind at 1. rewrite (index_Returns _ _ _ Hx).
  unfold bind at 1. rewrite (index_Returns _ _ _ Hy).
  destruct (less x y) eqn:Hless; cbn [negb].
  - unfold bind. rewrite (swap_Returns _ _ _ _ _ Hx Hy).
    destruct (IH (exchange h (parent j) j) (parent j)) as (h' & Hrun & Hrel);
      [rewrite exchange_len; lia|by rewrite exchange_len|lia|].
    exists h'. split; [done|]. eapply sift_up_swap; eauto. lia.
  - exists h. split; [done|]. eapply sift_up_stop; eauto. lia.
Qed.

End Loops.

(** ** What the relations preserve *)

Section SiftFacts.

Context {T : Type} (less : T -> T -> bool).
Implicit Types (h : list T) (i j k n : Z) (x y : T).

Lemma child_choice_range n h i j :
  0 <= i -> child_choice less n h i j ->
  i < j < n /\ parent j = i /\ (j = 2 * i + 1 \/ j = 2 * i + 2).
Proof.
  intros Hi (Hlt & [[Hn ->]|(Hn & a & b & _ & _ & ->)]).
  - split; [lia|]. split; [|by left]. unfold parent. div_lia.
  - destruct (less a b); (split; [lia|]); (split; [unfold parent; div_lia|]); auto.
Qed.

Lemma child_choice_det n h i j j' :
  child_choice less n h i j -> child_choice less n h i j' -> j = j'.
Proof.
  intros (_ & [[? ->]|(? & a & b & Ha & Hb & ->)])
         (_ & [[? ->]|(? & a' & b' & Ha' & Hb' & ->)]); try lia.
  by simplify_eq.
Qed.

Lemma sift_down_len n h i h' i' :
  sift_down less n h i h' i' -> slice_len h' = slice_len h.
Proof. induction 1; try done. by rewrite IHsift_down, exchange_len. Qed.

Lemma sift_down_perm n h i h' i' : sift_down less n h i h' i' -> h' ≡ₚ h.
Proof. induction 1; try done. by rewrite IHsift_down, exchange_perm. Qed.

Lemma sift_down_index n h i h' i' :
  sift_down less n h i h' i' -> 0 <= i -> i <= i' /\ (i' = i -> h' = h).
Proof.
  induction 1 as [| |h i j x y h' i' Hc Hx Hy Hless Hrec IH]; intros Hi;
    [done|done|].
  apply child_choice_range in Hc as (? & _); [|done].
  destruct IH as [? _]; lia.
Qed.

Lemma sift_down_frame n h i h' i' :
  sift_down less n h i h' i' -> 0 <= i ->
  forall k, k < i \/ n <= k -> at_index h' k = at_index h k.
Proof.
  induction 1 as [| |h i j x y h' i' Hc Hx Hy Hless Hrec IH]; intros Hi k Hk;
    [done|done|].
  apply child_choice_range in Hc as (? & _); [|done].
  rewrite IH by lia. apply at_exchange_other; lia.
Qed.

Lemma sift_down_det n h i h1 i1 h2 i2 :
  sift_down less n h i h1 i1 -> sift_down less n h i h2 i2 ->
  h1 = h2 /\ i1 = i2.
Proof.
  intros H1. revert h2 i2.
  induction H1 as [h i Hn|h i j x y Hc Hx Hy Hless
                  |h i j x y h' i' Hc Hx Hy Hless Hrec IH];
    intros h2 i2 H2; inversion H2 as [? ? Hn'|? ? j' x' y' Hc' Hx' Hy' Hless'
                  |? ? j' x' y' ? ? Hc' Hx' Hy' Hless' Hrec']; subst;
    try done;
    try (destruct Hc as [? _]; lia);
    try (destruct Hc' as [? _]; lia);
    pose proof (child_choice_det _ _ _ _ _ Hc Hc'); subst; simplify_eq;
    try congruence.
  by apply IH.
Qed.

Lemma exchange_take h n i j :
  0 <= i < n -> 0 <= j < n -> n <= slice_len h ->
  exchange (take (Z.to_nat n) h) i j = take (Z.to_nat n) (exchange h i j).
Proof.
  intros Hi Hj Hn. apply slice_eq. intros k.
  destruct (at_index_is_Some h i ltac:(lia)) as [y Hy].
  destruct (at_index_is_Some h j ltac:(lia)) as [x Hx].
  destruct (Z.lt_ge_cases k 0) as [Hk|Hk].
  { rewrite !at_index_None; [done| |]; lia. }
  destruct (Z.lt_ge_cases k n) as [Hkn|Hkn].
  - rewrite (at_index_take (exchange h i j)) by lia.
    destruct (Z.eq_dec k i) as [->|Hki].
    { rewrite (at_exchange_l _ _ _ x), (at_exchange_l _ _ _ x);
        rewrite ?slice_len_take, ?at_index_take; try done; lia. }
    destruct (Z.eq_dec k j) as [->|Hkj].
    { rewrite (at_exchange_r _ _ _ y), (at_exchange_r _ _ _ y);
        rewrite ?slice_len_take, ?at_index_take; try done; lia. }
    rewrite !at_exchange_other by done. apply at_index_take. lia.
  - rewrite !at_index_None; [done| |].
    + rewrite slice_len_take; [lia|]. rewrite exchange_len. lia.
    + rewrite exchange_len, slice_len_take; lia.
Qed.

Lemma child_choice_take n h i j :
  0 <= i -> n <= slice_len h ->
  child_choice less n h i j ->
  child_choice less n (take (Z.to_nat n) h) i j.
Proof.
  intros Hi Hn (Hlt & [[? ->]|(? & a & b & Ha & Hb & ->)]).
  - split; [done|]. by left.
  - split; [done|]. right. split; [done|]. exists a, b.
    rewrite !at_index_take by lia. done.
Qed.

(** [down] with bound [n] does not look beyond the first [n] elements. *)
Lemma sift_down_take n h i h' i' :
  sift_down less n h i h' i' -> 0 <= i -> n <= slice_len h ->
  sift_down less n (take (Z.to_nat n) h) i (take (Z.to_nat n) h') i'.
Proof.
  induction 1 as [h i Hleaf|h i j x y Hc Hx Hy Hless
                 |h i j x y h' i' Hc Hx Hy Hless Hrec IH]; intros Hi Hn.
  - by apply sift_down_leaf.
  - pose proof (child_choice_range _ _ _ _ Hi Hc) as (? & _).
    eapply sift_down_stop; [by apply child_choice_take| | |done];
      rewrite at_index_take by lia; done.
  - pose proof (child_choice_range _ _ _ _ Hi Hc) as (? & _).
    eapply sift_down_swap; [by apply child_choice_take| | |done|].
    1,2: rewrite at_index_take by lia; done.
    rewrite exchange_take by lia. apply IH; [lia|by rewrite exchange_len].
Qed.

Lemma sift_up_len h j h' : sift_up less h j h' -> slice_len h' = slice_len h.
Proof. induction 1; try done. by rewrite IHsift_up, exchange_len. Qed.

Lemma sift_up_perm h j h' : sift_up less h j h' -> h' ≡ₚ h.
Proof. induction 1; try done. by rewrite IHsift_up, exchange_perm. Qed.

Lemma sift_up_frame h j h' :
  sift_up less h j h' -> forall k, j < k -> at_index h' k = at_index h k.
Proof.
  induction 1 as [| |h j x y h' Hj Hx Hy Hless Hrec IH]; intros k Hk;
    [done|done|].
  pose proof (parent_lt j Hj). rewrite IH by lia.
  apply at_exchange_other; lia.
Qed.

Lemma init_sift_len n h i h' : init_sift less n h i h' -> slice_len h' = slice_len h.
Proof.
  induction 1 as [|h i h1 i1 h' Hi Hd Hrec IH]; [done|].
  rewrite IH. by eapply sift_down_len.
Qed.

Lemma init_sift_perm n h i h' : init_sift less n h i h' -> h' ≡ₚ h.
Proof.
  induction 1 as [|h i h1 i1 h' Hi Hd Hrec IH]; [done|].
  rewrite IH. by eapply sift_down_perm.
Qed.

End SiftFacts.

(** ** The heap invariant under a strict weak ordering *)

Create HintDb order.

(** Two reads of one index of one slice give one value. *)
Ltac same_elem :=
  repeat match goal with
  | H1 : at_index ?h ?k = Some ?a, H2 : at_index ?h ?k = Some ?b |- _ =>
      first [ constr_eq a b; clear H2
            | assert (b = a) as -> by congruence; clear H2 ]
  end.

Section HeapFacts.

Context {T : Type} (less : T -> T -> bool).
Implicit Types (h : list T) (i j k n m : Z) (x y : T).

Lemma heap_inv_from h : heap_inv less h <-> heap_from less 0 (slice_len h) h.
Proof.
  split.
  - intros Hh c Hc _ x y Hx Hy.
    apply (Hh (parent c) y Hy c x); [|done].
    apply parent_children; [pose proof (parent_lt c); lia|]. split; [done|lia].
  - intros Hh i p Hp c x Hc Hx.
    apply at_index_Some in Hp as Hi. apply at_index_Some in Hx as Hc'.
    apply parent_children in Hc as [Hpc ?]; [|lia].
    apply (Hh c); [lia|lia|done|by rewrite Hpc].
Qed.

Lemma heap_from_take m n h :
  0 <= n <= slice_len h ->
  heap_from less m n h -> heap_from less m n (take (Z.to_nat n) h).
Proof.
  intros Hn Hh c Hc Hm x y Hx Hy. pose proof (parent_lt c ltac:(lia)).
  rewrite at_index_take in Hx, Hy by lia. by apply (Hh c).
Qed.

(** Nothing moves when [down] runs on a position that is in order
    with its children; no assumption on [less] is needed. *)
Lemma sift_down_heap_id m n h i h' i' :
  sift_down less n h i h' i' -> 0 <= i -> m <= i ->
  heap_from less m n h -> h' = h /\ i' = i.
Proof.
  intros Hd Hi Hm Hh.
  destruct Hd as [|h i j x y Hc Hx Hy Hless|h i j x y h' i' Hc Hx Hy Hless Hrec];
    [done|done|].
  apply child_choice_range in Hc as (? & Hp & _); [|done].
  assert (less x y = false); [|congruence].
  apply (Hh j); [lia|lia|done|by rewrite Hp].
Qed.

Hypothesis Hswo : StrictWeakOrder less.

Lemma less_asym x y : less x y = true -> less y x = false.
Proof.
  intros Hxy. destruct (less y x) eqn:Hyx; [|done].
  pose proof (less_trans less Hswo x y x Hxy Hyx) as Hxx.
  by rewrite (less_irrefl less Hswo) in Hxx.
Qed.

Lemma less_neg_trans x y z :
  less x y = false -> less y z = false -> less x z = false.
Proof.
  intros Hxy Hyz. destruct (less x z) eqn:Hxz; [|done].
  destruct (less y x) eqn:Hyx.
  { by rewrite (less_trans less Hswo y x z Hyx Hxz) in Hyz. }
  destruct (less z y) eqn:Hzy.
  { by rewrite (less_trans less Hswo x z y Hxz Hzy) in Hxy. }
  by rewrite (less_incomp_trans less Hswo x y z) in Hxz.
Qed.

(** The root of a heap compares before no element. *)
Lemma heap_root_min n h r :
  heap_from less 0 n h -> at_index h 0 = Some r ->
  forall k, 0 <= k -> k < n -> forall x, at_index h k = Some x -> less x r = false.
Proof.
  intros Hh Hr k Hk. pattern k. apply Zlt_0_ind; [|done].
  clear k Hk. intros k IH Hk Hkn x Hx.
  destruct (Z.eq_dec k 0) as [->|Hne].
  { rewrite Hr in Hx. injection Hx as ->. apply (less_irrefl less Hswo). }
  pose proof (parent_lt k ltac:(lia)) as Hp.
  apply at_index_Some in Hx as Hlen.
  destruct (at_index_is_Some h (parent k) ltac:(lia)) as [y Hy].
  apply (less_neg_trans x y r).
  - apply (Hh k); [lia|lia|done|done].
  - apply (IH (parent k)); [lia|lia|done].
Qed.

Lemma less_trans_l x y z :
  less x y = true -> less x z = false -> less y z = false.
Proof.
  intros Hxy Hxz. destruct (less y z) eqn:Hyz; [|done].
  by rewrite (less_trans less Hswo x y z Hxy Hyz) in Hxz.
Qed.

Lemma less_trans_r x y z :
  less y z = true -> less x z = false -> less x y = false.
Proof.
  intros Hyz Hxz. destruct (less x y) eqn:Hxy; [|done].
  by rewrite (less_trans less Hswo x y z Hxy Hyz) in Hxz.
Qed.

Local Hint Resolve less_asym less_neg_trans less_trans_l less_trans_r : order.

Lemma stop_children n h i j x y :
  0 <= i -> child_choice less n h i j ->
  at_index h j = Some x -> at_index h i = Some y -> less x y = false ->
  forall c, 0 < c < n -> parent c = i -> edge_ok less h c.
Proof.
  intros Hi Hc Hx Hy Hless c Hcn Hp x' y' Hx' Hy'.
  rewrite Hp in Hy'.
  assert (c = 2 * i + 1 \/ c = 2 * i + 2) as Hcc
    by (apply parent_children; [done|split; [done|lia]]).
  destruct Hc as (Hlt & [[Hn Hj]|(Hn & a & b & Ha & Hb & Hj)]).
  { assert (c = j) as -> by lia. same_elem. done. }
  destruct (less a b) eqn:Hab; subst j;
    destruct Hcc as [Hc1|Hc2]; subst c; same_elem; eauto with order.
Qed.

Lemma down_ok_both m n h i : down_ok less m n h i -> both_ok less m n h i.
Proof. intros [H1 H2]. split; [|done]. intros c ? ? ? _. by apply H1. Qed.

(** One swap of [down] moves the violation to the chosen child. *)
Lemma step_ok m n h i j x y :
  0 <= i -> m <= i -> n <= slice_len h ->
  both_ok less m n h i -> child_choice less n h i j ->
  at_index h j = Some x -> at_index h i = Some y -> less x y = true ->
  down_ok less m n (exchange h i j) j.
Proof.
  intros Hi Hm Hn [Hedges Hgrands] Hc Hx Hy Hless.
  pose proof (child_choice_range _ _ _ _ _ Hi Hc) as (Hij & Hpj & Hjj).
  assert (at_index (exchange h i j) i = Some x) as Hi1
    by (apply at_exchange_l; [lia|done]).
  assert (at_index (exchange h i j) j = Some y) as Hj1
    by (apply at_exchange_r; [done|lia]).
  split.
  - intros c Hcn Hmc Hpc x' y' Hx' Hy'.
    destruct (Z.eq_dec c j) as [->|Hcj].
    { rewrite Hpj in Hy'.
      assert (x' = y) as -> by congruence.
      assert (y' = x) as -> by congruence. by apply less_asym. }
    destruct (Z.eq_dec c i) as [->|Hci].
    { pose proof (parent_lt i ltac:(lia)).
      rewrite at_exchange_other in Hy' by lia.
      assert (x' = x) as -> by congruence.
      apply (Hgrands j); try done; lia. }
    rewrite at_exchange_other in Hx' by done.
    destruct (Z.eq_dec (parent c) i) as [Hpi|Hpi].
    + rewrite Hpi in Hy'. assert (y' = x) as -> by congruence.
      assert (c = 2 * i + 1 \/ c = 2 * i + 2) as Hcc
        by (apply parent_children; [done|split; [done|lia]]).
      destruct Hc as (Hlt & [[Hn' Hj]|(Hn' & a & b & Ha & Hb & Hj)]); [lia|].
      destruct (less a b) eqn:Hab; subst j.
      * assert (c = 2 * i + 1) as Hc1 by lia. subst c. same_elem.
        eauto with order.
      * assert (c = 2 * i + 2) as Hc2 by lia. subst c. same_elem.
        eauto with order.
    + rewrite at_exchange_other in Hy' by done.
      by apply (Hedges c).
  - intros c Hcn Hpc Hj0 Hmj x' y' Hx' Hy'.
    rewrite Hpj in Hy'. assert (y' = x) as -> by congruence.
    pose proof (parent_lt c ltac:(lia)).
    rewrite at_exchange_other in Hx' by lia.
    apply (Hedges c); try done; try lia. by rewrite Hpc.
Qed.

(** [down] restores the invariant below and at [i]. *)
Lemma sift_down_heap m n h i h' i' :
  sift_down less n h i h' i' ->
  0 <= i -> m <= i -> n <= slice_len h ->
  down_ok less m n h i -> heap_from less m n h'.
Proof.
  induction 1 as [h i Hleaf|h i j x y Hc Hx Hy Hless
                 |h i j x y h' i' Hc Hx Hy Hless Hrec IH];
    intros Hi Hm Hn Hok.
  - intros c Hcn Hmc. destruct (Z.eq_dec (parent c) i) as [Hp|Hp].
    + assert (c = 2 * i + 1 \/ c = 2 * i + 2)
        by (apply parent_children; [done|split; [done|lia]]). lia.
    + by apply Hok.
  - intros c Hcn Hmc. destruct (Z.eq_dec (parent c) i) as [Hp|Hp].
    + by eapply stop_children.
    + by apply Hok.
  - pose proof (child_choice_range _ _ _ _ _ Hi Hc) as (Hij & _).
    apply IH; [lia|lia|by rewrite exchange_len|].
    eapply step_ok; eauto using down_ok_both.
Qed.

(** [down] started with a possible violation on both sides of [i]:
    when it moves, the invariant is restored; when it does not, only
    [h[i]] against its parent may still be out of order. *)
Lemma sift_down_both m n h i h' i' :
  sift_down less n h i h' i' ->
  0 <= i -> m <= i -> n <= slice_len h ->
  both_ok less m n h i ->
  (i < i' /\ heap_from less m n h') \/
  (i' = i /\ h' = h /\ forall c, 0 < c < n -> parent c = i -> edge_ok less h c).
Proof.
  intros Hd Hi Hm Hn Hok.
  destruct Hd as [h i Hleaf|h i j x y Hc Hx Hy Hless
                 |h i j x y h' i' Hc Hx Hy Hless Hrec].
  - right. split; [done|]. split; [done|]. intros c Hcn Hp.
    assert (c = 2 * i + 1 \/ c = 2 * i + 2)
      by (apply parent_children; [done|split; [done|lia]]). lia.
  - right. split; [done|]. split; [done|]. by eapply stop_children.
  - left. pose proof (child_choice_range _ _ _ _ _ Hi Hc) as (Hij & _).
    split.
    + apply sift_down_index in Hrec as [? _]; lia.
    + eapply sift_down_heap; [done|lia|lia|by rewrite exchange_len|].
      by eapply step_ok.
Qed.

(** [up] restores the invariant above and at [j]. *)
Lemma sift_up_heap n h j h' :
  sift_up less h j h' -> 0 <= j < n -> n <= slice_len h ->
  up_ok less n h j -> heap_from less 0 n h'.
Proof.
  induction 1 as [h|h j x y Hj Hx Hy Hless|h j x y h' Hj Hx Hy Hless Hrec IH];
    intros Hjn Hn [Hedges Hgrands].
  - intros c Hcn _. apply Hedges; lia.
  - intros c Hcn _. destruct (Z.eq_dec c j) as [->|Hcj].
    + intros x' y' Hx' Hy'. congruence.
    + by apply Hedges.
  - pose proof (parent_lt j Hj) as Hp.
    assert (at_index (exchange h (parent j) j) (parent j) = Some x) as Hp1
      by (apply at_exchange_l; [lia|done]).
    assert (at_index (exchange h (parent j) j) j = Some y) as Hj1
      by (apply at_exchange_r; [done|lia]).
    apply IH; [lia|by rewrite exchange_len|]. split.
    + intros c Hcn Hcp x' y' Hx' Hy'.
      destruct (Z.eq_dec c j) as [->|Hcj].
      { assert (x' = y) as -> by congruence.
        assert (y' = x) as -> by congruence. by apply less_asym. }
      rewrite at_exchange_other in Hx' by done.
      pose proof (parent_lt c ltac:(lia)) as Hpc.
      destruct (Z.eq_dec (parent c) (parent j)) as [Hsib|Hnsib].
      { rewrite Hsib in Hy'. assert (y' = x) as -> by congruence.
        assert (less x' y = false) as Hx'y
          by (apply (Hedges c); [done|done|done|by rewrite Hsib]).
        destruct (less x' x) eqn:Hx'x; [|done].
        by rewrite (less_trans less Hswo x' x y Hx'x Hless) in Hx'y. }
      destruct (Z.eq_dec (parent c) j) as [Hcj'|Hcj'].
      { rewrite Hcj' in Hy'. assert (y' = y) as -> by congruence.
        apply (Hgrands c); try done; lia. }
      rewrite at_exchange_other in Hy' by done.
      by apply (Hedges c).
    + intros c Hcn Hpc Hp0 _ x' y' Hx' Hy'.
      pose proof (parent_lt (parent j) Hp0) as Hpp.
      rewrite at_exchange_other in Hy' by lia.
      assert (less y y' = false) as Hyy'
        by (apply (Hedges (parent j)); [lia|lia|done|done]).
      destruct (Z.eq_dec c j) as [->|Hcj]; [congruence|].
      pose proof (parent_lt c ltac:(lia)).
      rewrite at_exchange_other in Hx' by lia.
      apply (less_neg_trans x' y y'); [|done].
      apply (Hedges c); [done|done|done|by rewrite Hpc].
Qed.

End HeapFacts.

(** ** The operations, run on slices that fit an [int] *)

Lemma int_sub_small a b :
  GoInt.min_int <= a - b <= GoInt.max_int -> GoInt.sub a b = a - b.
Proof. intros H. by apply wrap_small. Qed.

Lemma int_half n : 0 <= n <= GoInt.max_int -> GoInt.quot n 2 = n / 2.
Proof.
  intros Hn. unfold GoInt.quot. rewrite Z.quot_div_nonneg by lia.
  apply wrap_small. unfold GoInt.in_int.
  rewrite max_int_value in *. rewrite min_int_value. div_lia.
Qed.

Section Runs.

Context {T : Type} (less : T -> T -> bool).
Implicit Types (h : list T) (i j k n : Z) (x y : T).

Lemma down_run h i n :
  0 <= i <= GoInt.max_int -> n <= slice_len h ->
  slice_len h <= GoInt.max_int ->
  exists h' i', down less i n h = Returns (i' >? i) h' /\
                sift_down less n h i h' i'.
Proof.
  intros Hi Hn Hmax.
  destruct (down_loop_sift less (S (length h)) h i n) as (h' & i' & Hrun & Hrel);
    [done|done|done|unfold slice_len in *; lia|].
  exists h', i'. split; [|done]. unfold down, bind. by rewrite Hrun.
Qed.

Lemma up_run h j :
  0 <= j < slice_len h -> slice_len h <= GoInt.max_int ->
  exists h', up less j h = Returns tt h' /\ sift_up less h j h'.
Proof.
  intros Hj Hmax. unfold up.
  apply up_loop_sift; [done|done|unfold slice_len in *; lia].
Qed.

Lemma init_loop_run fuel : forall h i,
  -1 <= i < slice_len h \/ i = -1 -> slice_len h <= GoInt.max_int ->
  (Z.to_nat (i + 1) < fuel)%nat ->
  exists h', init_loop less fuel i (slice_len h) h = Returns tt h' /\
             init_sift less (slice_len h) h i h'.
Proof.
  induction fuel as [|fuel IH]; intros h i Hi Hmax Hfuel; [lia|].
  cbn [init_loop]. destruct (Z.geb_spec i 0) as [Hge|Hlt].
  - destruct (down_run h i (slice_len h)) as (h1 & i1 & Hrun & Hrel);
      [lia|lia|done|].
    unfold bind. rewrite Hrun.
    pose proof (sift_down_len _ _ _ _ _ _ Hrel) as Hlen.
    rewrite int_sub_small by (rewrite min_int_value; lia).
    destruct (IH h1 (i - 1)) as (h' & Hrun' & Hrel'); [lia|lia|lia|].
    rewrite Hlen in *. exists h'. split; [done|].
    by eapply init_sift_step.
  - exists h. split; [done|]. apply init_sift_done. lia.
Qed.

Lemma InitFunc_run h :
  slice_len h <= GoInt.max_int ->
  exists h', InitFunc less h = Returns tt h' /\
             init_sift less (slice_len h) h (slice_len h / 2 - 1) h'.
Proof.
  intros Hmax. unfold InitFunc, bind, len.
  assert (0 <= slice_len h) as Hpos by (unfold slice_len; lia).
  rewrite int_half by lia.
  rewrite int_sub_small by (rewrite min_int_value; div_lia).
  apply init_loop_run; [|done|unfold slice_len in *; div_lia].
  destruct (Z.eq_dec (slice_len h) 0) as [->|Hne]; [by right|left; div_lia].
Qed.

Lemma slice_len_app h x : slice_len (h ++ [x]) = slice_len h + 1.
Proof. unfold slice_len. rewrite length_app. simpl. lia. Qed.

Lemma PushFunc_run x h :
  slice_len h < GoInt.max_int ->
  exists h', PushFunc less x h = Returns tt h' /\
             sift_up less (h ++ [x]) (slice_len h) h'.
Proof.
  intros Hmax. unfold PushFunc, bind, append, len.
  assert (0 <= slice_len h) as Hpos by (unfold slice_len; lia).
  rewrite slice_len_app.
  rewrite int_sub_small by (rewrite min_int_value; lia).
  replace (slice_len h + 1 - 1) with (slice_len h) by lia.
  apply up_run; rewrite slice_len_app; lia.
Qed.

Lemma PopFunc_run h :
  0 < slice_len h <= GoInt.max_int ->
  exists x y h' i',
    at_index h 0 = Some x /\ at_index h (slice_len h - 1) = Some y /\
    PopFunc less h = Returns x h' /\
    sift_down less (slice_len h - 1)
      (take (Z.to_nat (slice_len h - 1)) (set_index h 0 y)) 0 h' i'.
Proof.
  intros Hlen. unfold PopFunc, bind at 1, len.
  rewrite int_sub_small by (rewrite min_int_value; lia).
  set (n := slice_len h - 1).
  destruct (at_index_is_Some h 0 ltac:(lia)) as [x Hx].
  destruct (at_index_is_Some h n ltac:(lia)) as [y Hy].
  unfold bind at 1. rewrite (index_Returns _ _ _ Hx).
  unfold bind at 1. rewrite (index_Returns _ _ _ Hy).
  unfold bind at 1, assign. rewrite Hx.
  unfold bind at 1, reslice. rewrite slice_len_set.
  destruct (Z.leb_spec 0 n); [|lia]. destruct (Z.leb_spec n (slice_len h)); [|lia].
  cbn [andb].
  destruct (down_run (take (Z.to_nat n) (set_index h 0 y)) 0 n)
    as (h' & i' & Hrun & Hrel);
    [rewrite max_int_value; lia
    |rewrite slice_len_take; [lia|rewrite slice_len_set; lia]
    |rewrite slice_len_take; [lia|rewrite slice_len_set; lia]|].
  unfold bind. rewrite Hrun. exists x, y, h', i'. done.
Qed.

Lemma down_then_up_run n h i :
  0 <= i < slice_len h -> n <= slice_len h -> slice_len h <= GoInt.max_int ->
  exists h',
    bind (down less i n) (fun moved => if negb moved then up less i else ret tt) h
    = Returns tt h' /\ down_then_up less n h i h'.
Proof.
  intros Hi Hn Hmax.
  destruct (down_run h i n) as (h2 & i2 & Hrun & Hrel); [lia|done|done|].
  unfold bind. rewrite Hrun.
  pose proof (sift_down_index _ _ _ _ _ _ Hrel ltac:(lia)) as [Hge _].
  pose proof (sift_down_len _ _ _ _ _ _ Hrel) as Hlen.
  destruct (Z.gtb_spec i2 i) as [Hgt|Hle]; cbn [negb].
  - exists h2. split; [done|]. exists h2, i2. split; [done|].
    left. split; [lia|done].
  - assert (i2 = i) as -> by lia.
    destruct (up_run h2 i) as (h' & Hrun' & Hrel'); [lia|lia|].
    exists h'. split; [done|]. exists h2, i. split; [done|]. by right.
Qed.

Lemma FixFunc_run h i :
  0 <= i < slice_len h -> slice_len h <= GoInt.max_int ->
  exists h', FixFunc less i h = Returns tt h' /\
             down_then_up less (slice_len h) h i h'.
Proof.
  intros Hi Hmax. unfold FixFunc, bind at 1, len.
  by apply down_then_up_run.
Qed.

Lemma RemoveFunc_run h i :
  0 <= i < slice_len h -> slice_len h <= GoInt.max_int ->
  exists x y h',
    at_index h i = Some x /\ at_index h (slice_len h - 1) = Some y /\
    RemoveFunc less i h = Returns x (take (Z.to_nat (slice_len h - 1)) h') /\
    ((i = slice_len h - 1 /\ h' = h) \/
     (i <> slice_len h - 1 /\
      down_then_up less (slice_len h - 1) (set_index h i y) i h')).
Proof.
  intros Hi Hmax. unfold RemoveFunc, bind at 1, len.
  rewrite int_sub_small by (rewrite min_int_value; lia).
  set (n := slice_len h - 1).
  destruct (at_index_is_Some h i ltac:(lia)) as [x Hx].
  destruct (at_index_is_Some h n ltac:(lia)) as [y Hy].
  unfold bind at 1. rewrite (index_Returns _ _ _ Hx).
  exists x, y.
  destruct (Z.eqb_spec n i) as [Heq|Hne]; cbn [negb].
  - exists h. split; [done|]. split; [done|]. split; [|left; done].
    unfold bind, ret, reslice.
    destruct (Z.leb_spec 0 n); [|lia].
    destruct (Z.leb_spec n (slice_len h)); [|lia]. done.
  - destruct (down_then_up_run n (set_index h i y) i) as (h' & Hrun & Hrel);
      [rewrite slice_len_set; lia|rewrite slice_len_set; lia
      |rewrite slice_len_set; lia|].
    exists h'. split; [done|]. split; [done|]. split; [|right; split; [lia|done]].
    unfold bind at 1. unfold bind at 1. rewrite (index_Returns _ _ _ Hy).
    unfold bind at 1, assign. rewrite Hx.
    rewrite Hrun.
    assert (slice_len h' = slice_len h) as Hlen'.
    { destruct Hrel as (h2 & i2 & Hd & [[_ ->]|[_ Hu]]).
      - by rewrite (sift_down_len _ _ _ _ _ _ Hd), slice_len_set.
      - by rewrite (sift_up_len _ _ _ _ Hu), (sift_down_len _ _ _ _ _ _ Hd),
          slice_len_set. }
    unfold bind, ret, reslice. rewrite Hlen'.
    destruct (Z.leb_spec 0 n); [|lia].
    destruct (Z.leb_spec n (slice_len h)); [|lia]. done.
Qed.

End Runs.

(** ** The operations and the invariant *)

Section Invariant.

Context {T : Type} (less : T -> T -> bool).
Implicit Types (h : list T) (i j k n m : Z) (x y : T).

Lemma slice_len_nonneg h : 0 <= slice_len h.
Proof. unfold slice_len. lia. Qed.

Lemma slice_last h y :
  at_index h (slice_len h - 1) = Some y ->
  h = take (Z.to_nat (slice_len h - 1)) h ++ [y].
Proof.
  intros Hy. apply at_index_Some in Hy as Hlen.
  unfold at_index in Hy. destruct (Z.ltb_spec (slice_len h - 1) 0); [lia|].
  rewrite <- (take_S_r _ _ _ Hy). symmetry. apply take_ge.
  unfold slice_len in *. lia.
Qed.

Lemma at_index_app_l h x k :
  k < slice_len h -> at_index (h ++ [x]) k = at_index h k.
Proof.
  intros Hk. unfold at_index. destruct (Z.ltb_spec k 0); [done|].
  apply lookup_app_l. unfold slice_len in Hk. lia.
Qed.

Lemma down_then_up_len n h i h' :
  down_then_up less n h i h' -> slice_len h' = slice_len h.
Proof.
  intros (h2 & i2 & Hd & [[_ ->]|[_ Hu]]).
  - by eapply sift_down_len.
  - rewrite (sift_up_len _ _ _ _ Hu). by eapply sift_down_len.
Qed.

Lemma down_then_up_perm n h i h' : down_then_up less n h i h' -> h' ≡ₚ h.
Proof.
  intros (h2 & i2 & Hd & [[_ ->]|[_ Hu]]).
  - by eapply sift_down_perm.
  - rewrite (sift_up_perm _ _ _ _ Hu). by eapply sift_down_perm.
Qed.

Lemma down_then_up_frame n h i h' :
  down_then_up less n h i h' -> 0 <= i < n ->
  forall k, n <= k -> at_index h' k = at_index h k.
Proof.
  intros (h2 & i2 & Hd & [[_ ->]|[_ Hu]]) Hi k Hk.
  - eapply sift_down_frame; [done|lia|lia].
  - rewrite (sift_up_frame _ _ _ _ Hu) by lia.
    eapply sift_down_frame; [done|lia|lia].
Qed.

Lemma init_sift_heap_id n h i h' :
  init_sift less n h i h' -> heap_from less 0 n h -> h' = h.
Proof.
  induction 1 as [|h i h1 i1 h' Hi Hd Hrec IH]; intros Hh; [done|].
  destruct (sift_down_heap_id less 0 n h i h1 i1) as [-> _]; auto with lia.
Qed.

Hypothesis Hswo : StrictWeakOrder less.

Lemma down_then_up_heap n h i h' :
  down_then_up less n h i h' -> 0 <= i < n -> n <= slice_len h ->
  both_ok less 0 n h i -> heap_from less 0 n h'.
Proof.
  intros (h2 & i2 & Hd & Hcase) Hi Hn Hok.
  destruct (sift_down_both less Hswo 0 n h i h2 i2 Hd)
    as [[Hlt Hheap]|(-> & -> & Hchildren)]; [lia|lia|done|done| |].
  - destruct Hcase as [[_ ->]|[? _]]; [done|lia].
  - destruct Hcase as [[? _]|[_ Hu]]; [lia|].
    eapply (sift_up_heap less Hswo); [done|done|done|].
    destruct Hok as [Hedges Hgrands]. split; [|done].
    intros c Hc Hci. destruct (Z.eq_dec (parent c) i) as [Hp|Hp].
    + by apply Hchildren.
    + apply Hedges; [done| |done|done]. pose proof (parent_lt c); lia.
Qed.

(** A heap in which [h[i]] was overwritten is out of order at most
    around [i]. *)
Lemma heap_set_both n h i v :
  heap_from less 0 n h -> 0 <= i < n -> n <= slice_len h ->
  both_ok less 0 n (set_index h i v) i.
Proof.
  intros Hh Hi Hn. split.
  - intros c Hc _ Hp Hci x y Hx Hy.
    rewrite at_set_index_ne in Hx, Hy by lia.
    apply (Hh c); [done|pose proof (parent_lt c); lia|done|done].
  - intros c Hc Hp Hi0 _ x y Hx Hy.
    pose proof (parent_lt c ltac:(lia)). pose proof (parent_lt i ltac:(lia)).
    rewrite at_set_index_ne in Hx, Hy by lia.
    destruct (at_index_is_Some h i ltac:(lia)) as [z Hz].
    apply (less_neg_trans less Hswo x z y).
    + apply (Hh c); [done|lia|done|by rewrite Hp].
    + apply (Hh i); [lia|lia|done|done].
Qed.

Lemma heap_from_shrink n n' h :
  n' <= n -> heap_from less 0 n h -> heap_from less 0 n' h.
Proof. intros Hn Hh c Hc Hm. apply Hh; lia. Qed.

Lemma init_sift_heap n h i h' :
  init_sift less n h i h' -> -1 <= i -> n <= slice_len h ->
  heap_from less (i + 1) n h -> heap_from less 0 n h'.
Proof.
  induction 1 as [h i Hi|h i h1 i1 h' Hi Hd Hrec IH]; intros Hi' Hn Hh.
  - by replace 0 with (i + 1) by lia.
  - apply IH; [lia|by rewrite (sift_down_len _ _ _ _ _ _ Hd)|].
    replace (i - 1 + 1) with i by lia.
    eapply (sift_down_heap less Hswo); [done|done|lia|done|]. split.
    + intros c Hc Hm Hp. apply Hh; [done|lia].
    + intros c Hc Hp Hi0 Hm. pose proof (parent_lt i Hi0). lia.
Qed.

(** [InitFunc] establishes the invariant on any slice. *)
Lemma InitFunc_heap h :
  slice_len h <= GoInt.max_int ->
  exists h', InitFunc less h = Returns tt h' /\
             heap_inv less h' /\ h' ≡ₚ h /\ slice_len h' = slice_len h.
Proof.
  intros Hmax. destruct (InitFunc_run less h Hmax) as (h' & Hrun & Hrel).
  pose proof (init_sift_len _ _ _ _ _ Hrel) as Hlen.
  pose proof (slice_len_nonneg h).
  exists h'. split; [done|]. split; [|split; [by eapply init_sift_perm|done]].
  apply heap_inv_from. rewrite Hlen.
  eapply init_sift_heap; [done|div_lia|done|].
  intros c Hc Hm. unfold parent in Hm. div_lia.
Qed.

(** [PushFunc] keeps the invariant and adds the value. *)
Lemma PushFunc_heap x h :
  slice_len h < GoInt.max_int -> heap_inv less h ->
  exists h', PushFunc less x h = Returns tt h' /\
             heap_inv less h' /\ h' ≡ₚ x :: h /\
             slice_len h' = slice_len h + 1.
Proof.
  intros Hmax Hh. destruct (PushFunc_run less x h Hmax) as (h' & Hrun & Hrel).
  pose proof (sift_up_len _ _ _ _ Hrel) as Hlen. rewrite slice_len_app in Hlen.
  pose proof (slice_len_nonneg h).
  exists h'. split; [done|]. split; [|split; [|done]].
  - apply heap_inv_from. rewrite Hlen.
    eapply (sift_up_heap less Hswo); [done|lia|by rewrite slice_len_app|].
    apply heap_inv_from in Hh. split.
    + intros c Hc Hcn x' y' Hx' Hy'. pose proof (parent_lt c ltac:(lia)).
      rewrite at_index_app_l in Hx', Hy' by lia. apply (Hh c); [lia|lia|done|done].
    + intros c Hc Hp. unfold parent in Hp. div_lia.
  - rewrite (sift_up_perm _ _ _ _ Hrel). by rewrite Permutation_app_comm.
Qed.

(** [PopFunc] returns the root, which is a minimum, and keeps the
    invariant on the remaining elements. *)
Lemma PopFunc_heap h :
  0 < slice_len h <= GoInt.max_int -> heap_inv less h ->
  exists x h', PopFunc less h = Returns x h' /\
               at_index h 0 = Some x /\
               (forall y, y ∈ h -> less y x = false) /\
               heap_inv less h' /\ x :: h' ≡ₚ h /\
               slice_len h' = slice_len h - 1.
Proof.
  intros Hlen Hh.
  destruct (PopFunc_run less h Hlen) as (x & y & h' & i' & Hx & Hy & Hrun & Hrel).
  pose proof (slice_last h y Hy) as Hsplit.
  remember (slice_len h - 1) as n eqn:En.
  assert (slice_len (take (Z.to_nat n) (set_index h 0 y)) = n) as Hlen1
    by (rewrite slice_len_take; [done|rewrite slice_len_set; lia]).
  pose proof (sift_down_len _ _ _ _ _ _ Hrel) as Hlen'. rewrite Hlen1 in Hlen'.
  apply heap_inv_from in Hh.
  exists x, h'. split; [done|]. split; [done|]. split; [|split; [|split; [|done]]].
  - intros z [k Hk]%list_elem_of_lookup. rewrite <- at_index_nat in Hk.
    apply at_index_Some in Hk as Hk'.
    by apply (heap_root_min less Hswo (slice_len h) h x Hh Hx (Z.of_nat k)); try lia.
  - apply heap_inv_from. rewrite Hlen'.
    eapply (sift_down_heap less Hswo 0); [done|done|done|lia|]. split.
    + intros c Hc _ Hp x' y' Hx' Hy'. pose proof (parent_lt c ltac:(lia)).
      rewrite at_index_take in Hx', Hy' by lia.
      rewrite at_set_index_ne in Hx', Hy' by lia.
      apply (Hh c); [lia|lia|done|done].
    + intros c _ _ ?. lia.
  - rewrite (sift_down_perm _ _ _ _ _ _ Hrel).
    destruct (Z.eq_dec n 0) as [Hn0|Hn0].
    { rewrite Hn0 in *. simpl in Hsplit. simpl.
      assert (x = y) as -> by congruence. by rewrite Hsplit. }
    transitivity (take (Z.to_nat n) h ++ [y]); [|by rewrite <- Hsplit].
    unfold set_index. change (Z.to_nat 0) with 0%nat.
    rewrite take_insert_lt by lia.
    rewrite <- Permutation_cons_append. apply insert_head_perm.
    rewrite lookup_take_lt by lia. by rewrite <- (at_index_nat h 0).
Qed.

End Invariant.

Section RemoveFix.

Context {T : Type} (less : T -> T -> bool).
Implicit Types (h : list T) (i j k n m : Z) (x y : T).
Hypothesis Hswo : StrictWeakOrder less.

(** [RemoveFunc] returns [h[i]], removes one occurrence of it and
    keeps the invariant. *)
Lemma RemoveFunc_heap h i :
  0 <= i < slice_len h -> slice_len h <= GoInt.max_int -> heap_inv less h ->
  exists x h', RemoveFunc less i h = Returns x h' /\
               at_index h i = Some x /\
               heap_inv less h' /\ x :: h' ≡ₚ h /\
               slice_len h' = slice_len h - 1.
Proof.
  intros Hi Hmax Hh.
  destruct (RemoveFunc_run less h i Hi Hmax) as (x & y & h3 & Hx & Hy & Hrun & Hcase).
  pose proof (slice_last h y Hy) as Hsplit.
  remember (slice_len h - 1) as n eqn:En.
  apply heap_inv_from in Hh.
  assert (heap_from less 0 n h) as Hhn by (eapply heap_from_shrink; [|done]; lia).
  exists x, (take (Z.to_nat n) h3). split; [done|]. split; [done|].
  destruct Hcase as [[-> ->]|[Hne Hrel]].
  - split; [|split].
    + apply heap_inv_from. rewrite slice_len_take by lia.
      apply heap_from_take; [lia|done].
    + assert (x = y) as -> by congruence.
      rewrite Hsplit at 2. apply Permutation_cons_append.
    + rewrite slice_len_take; lia.
  - pose proof (down_then_up_len _ _ _ _ _ Hrel) as Hlen3.
    rewrite slice_len_set in Hlen3.
    split; [|split].
    + apply heap_inv_from. rewrite slice_len_take by lia.
      apply heap_from_take; [lia|].
      eapply (down_then_up_heap less Hswo); [done|lia|rewrite slice_len_set; lia|].
      apply (heap_set_both less Hswo); [done|lia|lia].
    + assert (at_index h3 (slice_len h3 - 1) = Some y) as Hy3.
      { rewrite Hlen3, <- En.
        rewrite (down_then_up_frame _ _ _ _ _ Hrel) by lia.
        rewrite at_set_index_ne by lia. done. }
      pose proof (slice_last h3 y Hy3) as Hsplit3.
      rewrite Hlen3, <- En in Hsplit3.
      assert (take (Z.to_nat n) h3 ≡ₚ <[Z.to_nat i:=y]> (take (Z.to_nat n) h)) as Hperm.
      { apply (Permutation_app_inv_r [y]). rewrite <- Hsplit3.
        rewrite (down_then_up_perm _ _ _ _ _ Hrel).
        unfold set_index. rewrite Hsplit at 1.
        rewrite insert_app_l; [done|]. rewrite length_take_le; unfold slice_len in *; lia. }
      rewrite Hperm. transitivity (take (Z.to_nat n) h ++ [y]); [|by rewrite <- Hsplit].
      rewrite <- Permutation_cons_append. apply insert_head_perm.
      rewrite lookup_take_lt by lia. rewrite <- at_index_nat.
      by rewrite Z2Nat.id by lia.
    + rewrite slice_len_take; lia.
Qed.

(** [FixFunc] after [h[i]] was overwritten with [v]. *)
Lemma FixFunc_heap_set h i v :
  0 <= i < slice_len h -> slice_len h <= GoInt.max_int -> heap_inv less h ->
  exists h', FixFunc less i (set_index h i v) = Returns tt h' /\
             heap_inv less h' /\ h' ≡ₚ set_index h i v /\
             slice_len h' = slice_len h.
Proof.
  intros Hi Hmax Hh.
  destruct (FixFunc_run less (set_index h i v) i) as (h' & Hrun & Hrel);
    [by rewrite slice_len_set|by rewrite slice_len_set|].
  pose proof (down_then_up_len _ _ _ _ _ Hrel) as Hlen.
  rewrite slice_len_set in *.
  exists h'. split; [done|]. split; [|split; [by eapply down_then_up_perm|done]].
  apply heap_inv_from. rewrite Hlen.
  eapply (down_then_up_heap less Hswo); [done|done|rewrite slice_len_set; lia|].
  apply (heap_set_both less Hswo); [by apply heap_inv_from|done|lia].
Qed.

(** [FixFunc] on a slice whose invariant holds. *)
Lemma FixFunc_heap h i :
  0 <= i < slice_len h -> slice_len h <= GoInt.max_int -> heap_inv less h ->
  exists h', FixFunc less i h = Returns tt h' /\ heap_inv less h'.
Proof.
  intros Hi Hmax Hh.
  destruct (at_index_is_Some h i Hi) as [x Hx].
  destruct (FixFunc_heap_set h i x Hi Hmax Hh) as (h' & Hrun & Hheap & _).
  assert (set_index h i x = h) as Hid.
  { unfold set_index. apply list_insert_id. rewrite <- at_index_nat.
    by rewrite Z2Nat.id by lia. }
  rewrite Hid in Hrun. eauto.
Qed.

End RemoveFix.

(** ** Popping everything: sorted output *)

Section Sorting.

Context {T : Type} (less : T -> T -> bool).
Implicit Types (h l out : list T) (x y : T).

Lemma nondecreasing_nil : nondecreasing less [].
Proof. intros i j x y _ Hx. by rewrite lookup_nil in Hx. Qed.

Lemma nondecreasing_cons a l :
  nondecreasing less (a :: l) <->
  (forall y, y ∈ l -> less y a = false) /\ nondecreasing less l.
Proof.
  split.
  - intros Hs. split.
    + intros y [k Hk]%list_elem_of_lookup.
      apply (Hs 0%nat (S k) a y); [lia|done|done].
    + intros i j x y Hij Hx Hy. apply (Hs (S i) (S j) x y); [lia|done|done].
  - intros [Hhead Htail] [|i] [|j] x y Hij Hx Hy; simpl in *; try lia.
    + injection Hx as <-. apply Hhead. by eapply list_elem_of_lookup_2.
    + apply (Htail i j x y); [lia|done|done].
Qed.

Lemma length_slice_len h (k : nat) : length h = k <-> slice_len h = Z.of_nat k.
Proof. unfold slice_len. lia. Qed.

Hypothesis Hswo : StrictWeakOrder less.

(** Popping all the elements of a heap returns them in non-decreasing
    order. *)
Lemma pop_n_sorted (k : nat) : forall h,
  heap_inv less h -> length h = k -> slice_len h <= GoInt.max_int ->
  exists out, pop_n less k h = Returns out [] /\
              out ≡ₚ h /\ nondecreasing less out.
Proof.
  induction k as [|k IH]; intros h Hh Hk Hmax.
  - destruct h; [|done]. exists []. split; [done|]. split; [done|].
    apply nondecreasing_nil.
  - apply length_slice_len in Hk as Hk'.
    destruct (PopFunc_heap less Hswo h ltac:(lia) Hh)
      as (x & h' & Hrun & _ & Hmin & Hh' & Hperm & Hlen).
    destruct (IH h' Hh') as (out & Hrun' & Hperm' & Hsorted);
      [apply length_slice_len; lia|lia|].
    exists (x :: out). cbn [pop_n]. unfold bind at 1. rewrite Hrun.
    unfold bind at 1. rewrite Hrun'. split; [done|]. split.
    + by rewrite Hperm'.
    + apply nondecreasing_cons. split; [|done].
      intros y Hy. apply Hmin. rewrite <- Hperm. right. by rewrite <- Hperm'.
Qed.

(** Pushing values one by one onto a heap gives a heap of all of
    them. *)
Lemma push_all_heap xs : forall h,
  heap_inv less h -> slice_len h + Z.of_nat (length xs) <= GoInt.max_int ->
  exists h', push_all less xs h = Returns tt h' /\
             heap_inv less h' /\ h' ≡ₚ h ++ xs.
Proof.
  induction xs as [|x xs IH]; intros h Hh Hmax.
  - exists h. split; [done|]. split; [done|]. by rewrite app_nil_r.
  - simpl length in Hmax.
    destruct (PushFunc_heap less Hswo x h ltac:(lia) Hh)
      as (h1 & Hrun & Hh1 & Hperm & Hlen).
    destruct (IH h1 Hh1 ltac:(lia)) as (h' & Hrun' & Hh' & Hperm').
    exists h'. cbn [push_all]. unfold bind. rewrite Hrun.
    split; [done|]. split; [done|].
    rewrite Hperm', Hperm. by rewrite <- Permutation_middle.
Qed.

(** *** Two sorted arrangements of one multiset *)

Lemma equiv_less_refl x : equiv_less less x x.
Proof. split; apply (less_irrefl less Hswo). Qed.

Lemma equiv_less_sym x y : equiv_less less x y -> equiv_less less y x.
Proof. intros [? ?]. by split. Qed.

Lemma equiv_less_trans x y z :
  equiv_less less x y -> equiv_less less y z -> equiv_less less x z.
Proof.
  intros [Hxy Hyx] [Hyz Hzy]. split.
  - by apply (less_incomp_trans less Hswo x y z).
  - by apply (less_incomp_trans less Hswo z y x).
Qed.

Lemma Forall2_equiv_refl l : Forall2 (equiv_less less) l l.
Proof. induction l; constructor; [apply equiv_less_refl|done]. Qed.

(** Sorted sequences that agree up to order and up to values the
    ordering does not tell apart agree position by position. *)
Lemma sorted_equiv_perm l1 : forall l2 l,
  nondecreasing less l1 -> nondecreasing less l2 ->
  l1 ≡ₚ l -> Forall2 (equiv_less less) l l2 ->
  Forall2 (equiv_less less) l1 l2.
Proof.
  induction l1 as [|a l1 IH]; intros l2 l Hs1 Hs2 Hperm Hl.
  { apply Permutation_nil in Hperm. by subst. }
  apply nondecreasing_cons in Hs1 as [Hmin1 Hs1].
  assert (a ∈ l) as Ha by (rewrite <- Hperm; left).
  destruct l as [|b0 l0]; [by apply elem_of_nil in Ha|].
  apply Forall2_cons_inv_l in Hl as (b & l2' & Hb0 & Hl0 & ->).
  apply nondecreasing_cons in Hs2 as [Hmin2 Hs2].
  assert (less b0 a = false) as Hb0a.
  { assert (b0 ∈ a :: l1) as [Hba|Hin]%elem_of_cons by (rewrite Hperm; left).
    - rewrite Hba. apply (less_irrefl less Hswo).
    - by apply Hmin1. }
  assert (less a b = false) as Hab.
  { apply elem_of_cons in Ha as [Hab0|Hin]; [rewrite Hab0; by destruct Hb0|].
    apply list_elem_of_lookup in Hin as [k Hk].
    destruct (Forall2_lookup_l _ _ _ _ _ Hl0 Hk) as (c & Hc & [Hac _]).
    apply (less_neg_trans less Hswo a c b); [done|].
    apply Hmin2. by eapply list_elem_of_lookup_2. }
  assert (equiv_less less a b) as Heq.
  { split; [done|]. destruct Hb0 as [_ Hbb0].
    by apply (less_neg_trans less Hswo b b0 a). }
  constructor; [done|].
  assert (exists l', l1 ≡ₚ l' /\ Forall2 (equiv_less less) l' l2')
    as (l' & Hperm' & Hl'); [|by eapply IH].
  assert (b0 ∈ a :: l1) as Hb0in by (rewrite Hperm; left).
  apply list_elem_of_split in Hb0in as (p & q & Hsplit).
  destruct p as [|a' p]; simpl in Hsplit; injection Hsplit as Ha' Hl1.
  { exists l0. split; [|done]. rewrite <- Ha' in Hperm.
    by apply Permutation_cons_inv in Hperm. }
  assert (a :: p ++ q ≡ₚ l0) as Hperm0.
  { apply (Permutation_cons_inv (a := b0)). rewrite <- Hperm, Hl1.
    apply (Permutation_middle (a :: p) q b0). }
  assert (Forall2 (flip (equiv_less less)) (a :: p ++ q) (b0 :: p ++ q)) as Hflip.
  { constructor.
    - unfold flip. apply (equiv_less_trans b0 b a); [done|by apply equiv_less_sym].
    - apply Forall2_flip, Forall2_equiv_refl. }
  destruct (@Permutation_Forall2 _ _ _ _ _ _ Hperm0 Hflip) as (u & Hpu & Hfu).
  exists u. split.
  - rewrite <- Hpu, Hl1. symmetry. apply Permutation_middle.
  - apply Forall2_flip in Hfu.
    eapply Forall2_trans; [|exact Hfu|exact Hl0].
    intros ? ? ?. apply equiv_less_trans.
Qed.

Lemma sorted_perm_equiv l1 l2 :
  nondecreasing less l1 -> nondecreasing less l2 -> l1 ≡ₚ l2 ->
  Forall2 (equiv_less less) l1 l2.
Proof.
  intros Hs1 Hs2 Hperm.
  eapply sorted_equiv_perm; [done|done|done|apply Forall2_equiv_refl].
Qed.

Lemma Forall2_equiv_eq l1 l2 :
  (forall x y, equiv_less less x y -> x = y) ->
  Forall2 (equiv_less less) l1 l2 -> l1 = l2.
Proof.
  intros Htotal. induction 1 as [|x y l1 l2 Hxy _ IH]; [done|].
  f_equal; [by apply Htotal|done].
Qed.

End Sorting.

(** ** Concrete orderings and the invariant checker *)

Lemma Zltb_swo : StrictWeakOrder Z.ltb.
Proof.
  split.
  - intros x. apply Z.ltb_irrefl.
  - intros x y z. rewrite !Z.ltb_lt. lia.
  - intros x y z. rewrite !Z.ltb_ge. lia.
Qed.

Lemma by_key_swo : StrictWeakOrder by_key.
Proof.
  unfold by_key. split.
  - intros x. apply Z.ltb_irrefl.
  - intros x y z. rewrite !Z.ltb_lt. lia.
  - intros x y z. rewrite !Z.ltb_ge. lia.
Qed.

Lemma Zltb_total x y : equiv_less Z.ltb x y -> x = y.
Proof. unfold equiv_less. rewrite !Z.ltb_ge. lia. Qed.

Lemma heap_check_correct {T : Type} (less : T -> T -> bool) (h : list T) :
  heap_check less h = true -> heap_inv less h.
Proof.
  intros Hcheck. apply heap_inv_from. intros c Hc _ x y Hx Hy.
  unfold heap_check in Hcheck. rewrite forallb_forall in Hcheck.
  specialize (Hcheck (Z.to_nat c)).
  unfold at_index, parent in Hx, Hy.
  destruct (Z.ltb_spec c 0); [lia|].
  destruct (Z.ltb_spec ((c - 1) / 2) 0); [div_lia|].
  assert (Z.to_nat ((c - 1) / 2) = ((Z.to_nat c - 1) / 2)%nat) as Hpar.
  { rewrite Z2Nat.inj_div by lia. rewrite Z2Nat.inj_sub by lia. done. }
  rewrite Hpar in Hy. rewrite Hx, Hy in Hcheck.
  apply negb_true_iff, Hcheck. apply in_seq. unfold slice_len in Hc. lia.
Qed.

(** ** Calls with an index out of range, and calls on the empty slice *)

Section OutOfRange.

Context {T : Type} (less : T -> T -> bool).
Implicit Types (h : list T) (i : Z).

Lemma PopFunc_empty : PopFunc less [] = Panics [].
Proof. reflexivity. Qed.

Lemma RemoveFunc_out_of_range h i :
  ~ (0 <= i < slice_len h) -> RemoveFunc less i h = Panics h.
Proof.
  intros Hi. unfold RemoveFunc, bind at 1, len. unfold bind at 1.
  by rewrite (index_Panics h i (at_index_None h i Hi)).
Qed.

(** The parent computed by [up] is the index itself exactly at [0] and
    at [-1]. *)
Lemma up_parent_fixpoint i :
  GoInt.in_int i ->
  (GoInt.quot (GoInt.sub i 1) 2 =? i) = ((i =? -1) || (i =? 0)).
Proof.
  unfold GoInt.in_int. rewrite max_int_value, min_int_value. intros Hi.
  destruct (Z.eq_dec i (-9223372036854775808)) as [->|Hmin]; [reflexivity|].
  unfold GoInt.quot, GoInt.sub.
  rewrite (wrap_small (i - 1))
    by (unfold GoInt.in_int; rewrite max_int_value, min_int_value; lia).
  rewrite wrap_small
    by (unfold GoInt.in_int; rewrite max_int_value, min_int_value; div_lia).
  destruct (Z.eqb_spec (Z.quot (i - 1) 2) i) as [Heq|Hne];
    destruct (Z.eqb_spec i (-1)); destruct (Z.eqb_spec i 0); try done;
    div_lia.
Qed.

Lemma up_out_of_range h i :
  GoInt.in_int i -> ~ (0 <= i < slice_len h) ->
  up less i h = if (i =? -1) || (i =? 0) then Returns tt h else Panics h.
Proof.
  intros Hint Hi. unfold up. cbn [up_loop].
  rewrite (up_parent_fixpoint i Hint).
  destruct ((i =? -1) || (i =? 0)); [done|].
  unfold bind. by rewrite (index_Panics h i (at_index_None h i Hi)).
Qed.

Lemma left_child_out_of_range i n :
  i = -1 \/ (i = 0 /\ n = 0) ->
  let j1 := GoInt.add (GoInt.mul 2 i) 1 in (j1 >=? n) || (j1 <? 0) = true.
Proof.
  intros [->|[-> ->]]; [|reflexivity].
  change (GoInt.add (GoInt.mul 2 (-1)) 1) with (-1). cbn [Z.ltb Z.compare].
  apply orb_true_r.
Qed.

Lemma FixFunc_out_of_range h i :
  GoInt.in_int i -> ~ (0 <= i < slice_len h) ->
  FixFunc less i h = if (i =? -1) || (i =? 0) then Returns tt h else Panics h.
Proof.
  intros Hint Hi. pose proof (slice_len_nonneg h) as Hlen.
  pose proof (at_index_None h i Hi) as Hnone.
  unfold FixFunc, bind at 1, len. unfold bind at 1, down.
  cbn [down_loop]. unfold bind at 1.
  destruct ((GoInt.add (GoInt.mul 2 i) 1 >=? slice_len h)
            || (GoInt.add (GoInt.mul 2 i) 1 <? 0)) eqn:Hbreak.
  - unfold ret at 1. unfold ret at 1.
    rewrite Z.gtb_ltb, Z.ltb_irrefl. cbn [negb].
    by apply up_out_of_range.
  - assert (((i =? -1) || (i =? 0)) = false) as ->.
    { destruct (Z.eqb_spec i (-1)) as [->|]; [|destruct (Z.eqb_spec i 0) as [->|]; [|done]].
      - by rewrite (left_child_out_of_range (-1) (slice_len h)) in Hbreak by auto.
      - assert (slice_len h = 0) as Hl0 by lia.
        rewrite Hl0 in Hbreak.
        by rewrite (left_child_out_of_range 0 0) in Hbreak by auto. }
    unfold bind, index, ret.
    repeat (match goal with
            | |- context [if ?b then _ else _] => destruct b eqn:?
            | |- context [at_index h ?k] => destruct (at_index h k) eqn:?
            end; cbv beta iota); congruence.
Qed.

End OutOfRange.

(** ** [PopFunc] and [RemoveFunc] at index 0 *)

Section PopRemove.

Context {T : Type} (less : T -> T -> bool).
Implicit Types (h : list T) (i : Z).

Lemma sift_up_root_id h h' : sift_up less h 0 h' -> h' = h.
Proof. inversion 1; subst; [done|lia|lia]. Qed.

Lemma PopFunc_RemoveFunc_0 h :
  0 < slice_len h <= GoInt.max_int ->
  PopFunc less h = RemoveFunc less 0 h.
Proof.
  intros Hlen.
  destruct (PopFunc_run less h Hlen) as (x & y & h' & i' & Hx & Hy & Hpop & Hrel).
  destruct (RemoveFunc_run less h 0 ltac:(lia) ltac:(lia))
    as (x2 & y2 & h3 & Hx2 & Hy2 & Hrem & Hcase).
  rewrite Hpop, Hrem.
  assert (x2 = x) as -> by congruence. assert (y2 = y) as -> by congruence.
  f_equal.
  remember (slice_len h - 1) as n eqn:En.
  destruct Hcase as [[Hn0 ->]|[Hn0 (h2 & i2 & Hd & Hcase)]].
  - rewrite <- Hn0 in *. simpl.
    apply sift_down_len in Hrel. simpl in Hrel.
    destruct h'; [done|]. unfold slice_len in Hrel. simpl in Hrel. lia.
  - assert (h3 = h2) as ->.
    { destruct Hcase as [[_ ->]|[_ Hu]]; [done|]. by apply sift_up_root_id in Hu. }
    apply sift_down_take in Hd; [|lia|rewrite slice_len_set; lia].
    by destruct (sift_down_det _ _ _ _ _ _ _ _ Hrel Hd).
Qed.

End PopRemove.

(** ** Heaps of one multiset pop alike *)

Section PopAll.

Context {T : Type} (less : T -> T -> bool).
Implicit Types (h l out : list T) (x y : T).
Hypothesis Hswo : StrictWeakOrder less.

Lemma pop_all_sorted h :
  heap_inv less h -> slice_len h <= GoInt.max_int ->
  exists out, pop_all less h = Returns out [] /\
              out ≡ₚ h /\ nondecreasing less out.
Proof. intros Hh Hmax. unfold pop_all. by apply pop_n_sorted. Qed.

Lemma pop_all_equiv h1 h2 :
  heap_inv less h1 -> heap_inv less h2 -> h1 ≡ₚ h2 ->
  slice_len h1 <= GoInt.max_int ->
  exists o1 o2,
    pop_all less h1 = Returns o1 [] /\ pop_all less h2 = Returns o2 [] /\
    o1 ≡ₚ h1 /\ nondecreasing less o1 /\ nondecreasing less o2 /\
    Forall2 (equiv_less less) o1 o2 /\
    ((forall x y, equiv_less less x y -> x = y) -> o1 = o2).
Proof.
  intros Hh1 Hh2 Hperm Hmax.
  assert (slice_len h2 = slice_len h1) as Hlen
    by (unfold slice_len; by rewrite Hperm).
  destruct (pop_all_sorted h1 Hh1 Hmax) as (o1 & Hrun1 & Hp1 & Hs1).
  destruct (pop_all_sorted h2 Hh2 ltac:(lia)) as (o2 & Hrun2 & Hp2 & Hs2).
  assert (Forall2 (equiv_less less) o1 o2) as Heq.
  { apply (sorted_perm_equiv less Hswo); [done|done|].
    by rewrite Hp1, Hp2. }
  exists o1, o2. repeat (split; [done|]).
  intros Htotal. by eapply Forall2_equiv_eq.
Qed.

Lemma fix_after_write_heap h i v :
  0 <= i < slice_len h -> slice_len h <= GoInt.max_int -> heap_inv less h ->
  exists h', fix_after_write less i v h = Returns tt h' /\
             heap_inv less h' /\ h' ≡ₚ set_index h i v /\
             slice_len h' = slice_len h.
Proof.
  intros Hi Hmax Hh.
  destruct (FixFunc_heap_set less Hswo h i v Hi Hmax Hh) as (h' & Hrun & Hrest).
  exists h'. split; [|done]. unfold fix_after_write, bind, assign.
  destruct (at_index_is_Some h i Hi) as [x ->]. done.
Qed.

Lemma remove_then_push_heap h i v :
  0 <= i < slice_len h -> slice_len h <= GoInt.max_int -> heap_inv less h ->
  exists h', remove_then_push less i v h = Returns tt h' /\
             heap_inv less h' /\ h' ≡ₚ set_index h i v /\
             slice_len h' = slice_len h.
Proof.
  intros Hi Hmax Hh.
  destruct (RemoveFunc_heap less Hswo h i Hi Hmax Hh)
    as (x & h1 & Hrun1 & Hx & Hh1 & Hperm1 & Hlen1).
  destruct (PushFunc_heap less Hswo v h1 ltac:(lia) Hh1)
    as (h' & Hrun2 & Hh' & Hperm2 & Hlen2).
  exists h'. split; [|split; [done|split; [|lia]]].
  - unfold remove_then_push, bind. by rewrite Hrun1.
  - rewrite Hperm2. apply (Permutation_cons_inv (a := x)).
    rewrite perm_swap, Hperm1. symmetry. unfold set_index.
    apply insert_head_perm. rewrite <- at_index_nat.
    by rewrite Z2Nat.id by lia.
Qed.

End PopAll.

(** * The properties of the public operations *)

(** Discharges the side conditions on concrete slices. *)
Ltac concrete :=
  first [ apply heap_check_correct; reflexivity
        | rewrite ?max_int_value; unfold slice_len; simpl; lia
        | unfold GoInt.in_int; rewrite max_int_value, min_int_value; lia ].

(** C1. Every public operation leaves the heap invariant in place:
    [InitFunc] establishes it on an arbitrary slice [h0]; on a slice [h]
    whose invariant holds, [PushFunc], [PopFunc] (when [h] is not empty),
    [RemoveFunc] and [FixFunc] (at an index in range) return with the
    invariant holding on the resulting slice, and so does [FixFunc] after
    the caller has overwritten the element at that index. The ordering is
    a strict weak ordering and the slices fit an [int] ([PushFunc] needs
    room for one more element). *)
Theorem heap_invariant_preserved {T : Type} (less : T -> T -> bool)
    (h0 h : list T) (x : T) :
  StrictWeakOrder less ->
  slice_len h0 <= GoInt.max_int -> slice_len h <= GoInt.max_int ->
  heap_inv less h ->
  (exists h', InitFunc less h0 = Returns tt h' /\ heap_inv less h') /\
  (slice_len h < GoInt.max_int ->
   exists h', PushFunc less x h = Returns tt h' /\ heap_inv less h') /\
  (h <> [] ->
   exists y h', PopFunc less h = Returns y h' /\ heap_inv less h') /\
  (forall i, 0 <= i < slice_len h ->
   exists y h', RemoveFunc less i h = Returns y h' /\ heap_inv less h') /\
  (forall i, 0 <= i < slice_len h ->
   exists h', FixFunc less i h = Returns tt h' /\ heap_inv less h') /\
  (forall i v, 0 <= i < slice_len h ->
   exists h', fix_after_write less i v h = Returns tt h' /\ heap_inv less h').
Proof.
  intros Hswo Hmax0 Hmax Hh. repeat split.
  - destruct (InitFunc_heap less Hswo h0 Hmax0) as (h' & ? & ? & _). eauto.
  - intros Hroom.
    destruct (PushFunc_heap less Hswo x h Hroom Hh) as (h' & ? & ? & _). eauto.
  - intros Hne.
    assert (0 < slice_len h) by (destruct h; [done|unfold slice_len; simpl; lia]).
    destruct (PopFunc_heap less Hswo h ltac:(lia) Hh) as (y & h' & ? & _ & _ & ? & _).
    eauto.
  - intros i Hi.
    destruct (RemoveFunc_heap less Hswo h i Hi ltac:(lia) Hh)
      as (y & h' & ? & _ & ? & _). eauto.
  - intros i Hi. apply (FixFunc_heap less Hswo); [done|lia|done].
  - intros i v Hi.
    destruct (fix_after_write_heap less Hswo h i v Hi ltac:(lia) Hh)
      as (h' & ? & ? & _). eauto.
Qed.

Lemma heap_invariant_preserved_witness :
  (exists h', InitFunc Z.ltb [5; 2; 8; 1; 9; 3] = Returns tt h' /\ heap_inv Z.ltb h') /\
  (exists h', PushFunc Z.ltb 0 [1; 3; 2] = Returns tt h' /\ heap_inv Z.ltb h') /\
  (exists y h', PopFunc Z.ltb [1; 3; 2] = Returns y h' /\ heap_inv Z.ltb h') /\
  (exists y h', RemoveFunc Z.ltb 1 [1; 3; 2] = Returns y h' /\ heap_inv Z.ltb h') /\
  (exists h', FixFunc Z.ltb 1 [1; 3; 2] = Returns tt h' /\ heap_inv Z.ltb h') /\
  (exists h', fix_after_write Z.ltb 0 7 [1; 3; 2] = Returns tt h' /\ heap_inv Z.ltb h').
Proof.
  destruct (heap_invariant_preserved Z.ltb [5; 2; 8; 1; 9; 3] [1; 3; 2] 0 Zltb_swo)
    as (Hinit & Hpush & Hpop & Hremove & Hfix & Hwrite); [concrete|concrete|concrete|].
  split; [exact Hinit|]. split; [apply Hpush; concrete|].
  split; [apply Hpop; discriminate|].
  split; [apply Hremove; concrete|].
  split; [apply Hfix; concrete|apply Hwrite; concrete].
Defined.

(** C2. [InitFunc] followed by as many [PopFunc] calls as the slice has
    elements returns a sequence of that many values that is
    non-decreasing under [less] and is a permutation of the original
    elements; the slice is empty afterwards. *)
Theorem heapify_pop_sorted {T : Type} (less : T -> T -> bool) (h : list T) :
  StrictWeakOrder less -> slice_len h <= GoInt.max_int ->
  exists out,
    bind (InitFunc less) (fun _ => pop_n less (length h)) h = Returns out [] /\
    length out = length h /\ nondecreasing less out /\ out ≡ₚ h.
Proof.
  intros Hswo Hmax.
  destruct (InitFunc_heap less Hswo h Hmax) as (h' & Hrun & Hh' & Hperm & Hlen).
  destruct (pop_n_sorted less Hswo (length h) h' Hh') as (out & Hrun' & Hperm' & Hs);
    [unfold slice_len in Hlen; lia|lia|].
  exists out. unfold bind. rewrite Hrun. split; [done|].
  split; [by rewrite Hperm', Hperm|]. split; [done|by rewrite Hperm'].
Qed.

Lemma heapify_pop_sorted_witness :
  exists out,
    bind (InitFunc Z.ltb) (fun _ => pop_n Z.ltb 6) [5; 2; 8; 1; 9; 3]
      = Returns out [] /\
    length out = 6%nat /\ nondecreasing Z.ltb out /\ out ≡ₚ [5; 2; 8; 1; 9; 3].
Proof.
  apply (heapify_pop_sorted Z.ltb [5; 2; 8; 1; 9; 3] Zltb_swo). concrete.
Defined.

(** C3. On a non-empty slice whose invariant holds, [PopFunc] returns
    the value that was at index 0, and no element of the slice compares
    before it. *)
Theorem pop_returns_minimum {T : Type} (less : T -> T -> bool) (h : list T) :
  StrictWeakOrder less ->
  0 < slice_len h <= GoInt.max_int -> heap_inv less h ->
  exists x h', PopFunc less h = Returns x h' /\
               at_index h 0 = Some x /\
               forall y, y ∈ h -> less y x = false.
Proof.
  intros Hswo Hlen Hh.
  destruct (PopFunc_heap less Hswo h Hlen Hh) as (x & h' & ? & ? & ? & _).
  eauto.
Qed.

Lemma pop_returns_minimum_witness :
  exists x h', PopFunc Z.ltb [1; 3; 2] = Returns x h' /\
               at_index [1; 3; 2] 0 = Some x /\
               forall y, y ∈ [1; 3; 2] -> Z.ltb y x = false.
Proof.
  apply (pop_returns_minimum Z.ltb [1; 3; 2] Zltb_swo); concrete.
Defined.

(** C4, as the code has it. With an index outside [0, len(h)),
    [RemoveFunc] always panics, leaving the slice as it was. [FixFunc]
    panics as well, except at index [-1] and at index [0] of an empty
    slice: there [down] finds no child, [up] finds the index to be its
    own parent, no element is read, and the call returns normally with
    the slice unchanged. *)
Theorem out_of_range_index {T : Type} (less : T -> T -> bool) (h : list T) (i : Z) :
  GoInt.in_int i -> ~ (0 <= i < slice_len h) ->
  RemoveFunc less i h = Panics h /\
  FixFunc less i h =
    if (i =? -1) || (i =? 0) then Returns tt h else Panics h.
Proof.
  intros Hint Hi. split.
  - by apply RemoveFunc_out_of_range.
  - by apply FixFunc_out_of_range.
Qed.

Lemma out_of_range_index_witness :
  RemoveFunc Z.ltb 3 [1; 3; 2] = Panics [1; 3; 2] /\
  FixFunc Z.ltb 3 [1; 3; 2] = Panics [1; 3; 2].
Proof.
  apply (out_of_range_index Z.ltb [1; 3; 2] 3); concrete.
Defined.

(** C4 as stated fails: [FixFunc] returns normally at index 0 of an
    empty slice and at index -1 of any slice. *)
Lemma out_of_range_fix_returns :
  ~ (forall (h : list Z) (i : Z),
       GoInt.in_int i -> ~ (0 <= i < slice_len h) ->
       exists h', FixFunc Z.ltb i h = Panics h').
Proof.
  intros Hclaim.
  destruct (Hclaim [] 0) as [h' Hpanic]; [concrete|concrete|].
  discriminate Hpanic.
Qed.

(** C5. [PopFunc] on an empty slice panics. On any slice, [PopFunc] and
    [RemoveFunc] either return or panic with the slice exactly as it was
    on entry: a failed emptiness or bounds check has changed neither an
    element nor the length. *)
Theorem empty_or_bounds_failure_unchanged {T : Type} (less : T -> T -> bool)
    (h : list T) (i : Z) :
  slice_len h <= GoInt.max_int ->
  PopFunc less [] = Panics [] /\
  (PopFunc less h = Panics h \/ exists x h', PopFunc less h = Returns x h') /\
  (RemoveFunc less i h = Panics h \/
   exists x h', RemoveFunc less i h = Returns x h').
Proof.
  intros Hmax. split; [reflexivity|]. split.
  - destruct h as [|a h]; [by left|right].
    destruct (PopFunc_run less (a :: h)) as (x & _ & h' & _ & _ & _ & Hrun & _);
      [unfold slice_len in *; simpl in *; lia|eauto].
  - destruct (Z.lt_ge_cases i 0) as [Hneg|Hpos];
      [left; apply RemoveFunc_out_of_range; lia|].
    destruct (Z.lt_ge_cases i (slice_len h)) as [Hlt|Hge];
      [|left; apply RemoveFunc_out_of_range; lia].
    right. destruct (RemoveFunc_run less h i) as (x & _ & h' & _ & _ & Hrun & _);
      [lia|done|eauto].
Qed.

Lemma empty_or_bounds_failure_unchanged_witness :
  PopFunc Z.ltb [] = Panics [] /\
  (PopFunc Z.ltb [] = Panics [] \/ exists x h', PopFunc Z.ltb [] = Returns x h') /\
  (RemoveFunc Z.ltb 5 [] = Panics [] \/
   exists x h', RemoveFunc Z.ltb 5 [] = Returns x h').
Proof.
  apply (empty_or_bounds_failure_unchanged Z.ltb [] 5). concrete.
Defined.

(** C6. On a slice whose invariant holds and for an index in range,
    [RemoveFunc] returns the value that was at that index; the resulting
    slice is one element shorter, holds the original elements less one
    occurrence of the returned value, and satisfies the invariant. *)
Theorem remove_correct {T : Type} (less : T -> T -> bool) (h : list T) (i : Z) :
  StrictWeakOrder less ->
  0 <= i < slice_len h -> slice_len h <= GoInt.max_int -> heap_inv less h ->
  exists x h', RemoveFunc less i h = Returns x h' /\
               at_index h i = Some x /\
               slice_len h' = slice_len h - 1 /\
               x :: h' ≡ₚ h /\
               heap_inv less h'.
Proof.
  intros Hswo Hi Hmax Hh.
  destruct (RemoveFunc_heap less Hswo h i Hi Hmax Hh) as (x & h' & ? & ? & ? & ? & ?).
  exists x, h'. done.
Qed.

Lemma remove_correct_witness :
  exists x h', RemoveFunc Z.ltb 1 [1; 3; 2; 4] = Returns x h' /\
               at_index [1; 3; 2; 4] 1 = Some x /\
               slice_len h' = slice_len [1; 3; 2; 4] - 1 /\
               x :: h' ≡ₚ [1; 3; 2; 4] /\
               heap_inv Z.ltb h'.
Proof.
  apply (remove_correct Z.ltb [1; 3; 2; 4] 1 Zltb_swo); concrete.
Defined.

(** C7, as the code has it. Overwriting [h[i]] and calling [FixFunc]
    gives a heap with the same length and the same elements as
    [RemoveFunc] at [i] followed by [PushFunc] of the new value. Popping
    everything from the two heaps gives sequences that agree position by
    position up to values the ordering does not tell apart, and that are
    equal when the ordering tells all distinct values apart. *)
Theorem fix_as_remove_then_push {T : Type} (less : T -> T -> bool)
    (h : list T) (i : Z) (v : T) :
  StrictWeakOrder less ->
  0 <= i < slice_len h -> slice_len h <= GoInt.max_int -> heap_inv less h ->
  exists hf hr outf outr,
    fix_after_write less i v h = Returns tt hf /\
    remove_then_push less i v h = Returns tt hr /\
    heap_inv less hf /\ heap_inv less hr /\
    slice_len hf = slice_len hr /\ hf ≡ₚ hr /\
    pop_all less hf = Returns outf [] /\
    pop_all less hr = Returns outr [] /\
    Forall2 (equiv_less less) outf outr /\
    ((forall x y, equiv_less less x y -> x = y) -> outf = outr).
Proof.
  intros Hswo Hi Hmax Hh.
  destruct (fix_after_write_heap less Hswo h i v Hi Hmax Hh)
    as (hf & Hrunf & Hhf & Hpermf & Hlenf).
  destruct (remove_then_push_heap less Hswo h i v Hi Hmax Hh)
    as (hr & Hrunr & Hhr & Hpermr & Hlenr).
  destruct (pop_all_equiv less Hswo hf hr Hhf Hhr)
    as (outf & outr & ? & ? & _ & _ & _ & ? & ?);
    [by rewrite Hpermf, Hpermr|lia|].
  exists hf, hr, outf, outr. repeat (split; [done|]).
  split; [lia|]. split; [by rewrite Hpermf, Hpermr|done].
Qed.

Lemma fix_as_remove_then_push_witness :
  exists hf hr outf outr,
    fix_after_write Z.ltb 1 0 [1; 3; 2] = Returns tt hf /\
    remove_then_push Z.ltb 1 0 [1; 3; 2] = Returns tt hr /\
    heap_inv Z.ltb hf /\ heap_inv Z.ltb hr /\
    slice_len hf = slice_len hr /\ hf ≡ₚ hr /\
    pop_all Z.ltb hf = Returns outf [] /\
    pop_all Z.ltb hr = Returns outr [] /\
    Forall2 (equiv_less Z.ltb) outf outr /\
    ((forall x y, equiv_less Z.ltb x y -> x = y) -> outf = outr).
Proof.
  apply (fix_as_remove_then_push Z.ltb [1; 3; 2] 1 0 Zltb_swo); concrete.
Defined.

(** C7 as stated fails: under an ordering with ties between distinct
    values, the two heaps pop the tied values in different orders. *)
Lemma fix_vs_remove_push_ties :
  StrictWeakOrder by_key /\
  heap_inv by_key [(0, 0); (0, 1)] /\
  ~ (forall hf hr,
       fix_after_write by_key 0 (0, 9) [(0, 0); (0, 1)] = Returns tt hf ->
       remove_then_push by_key 0 (0, 9) [(0, 0); (0, 1)] = Returns tt hr ->
       pop_all by_key hf = pop_all by_key hr).
Proof.
  split; [exact by_key_swo|]. split; [concrete|].
  intros Hclaim.
  specialize (Hclaim [(0, 9); (0, 1)] [(0, 1); (0, 9)] eq_refl eq_refl).
  discriminate Hclaim.
Qed.

(** C8, as the code has it. For every order [xs] of pushing the values
    and every arrangement [ys] of the same values in a slice: pushing
    [xs] one by one onto an empty slice and popping everything, and
    heapifying [ys] and popping everything, both return a non-decreasing
    permutation of the values; the two outputs agree position by
    position up to values the ordering does not tell apart, and are
    equal when the ordering tells all distinct values apart. *)
Theorem push_pop_as_heapify_pop {T : Type} (less : T -> T -> bool)
    (xs ys : list T) :
  StrictWeakOrder less -> xs ≡ₚ ys -> slice_len xs <= GoInt.max_int ->
  exists outp outh,
    push_then_pop_all less xs [] = Returns outp [] /\
    heapify_then_pop_all less ys = Returns outh [] /\
    outp ≡ₚ xs /\ outh ≡ₚ ys /\
    nondecreasing less outp /\ nondecreasing less outh /\
    Forall2 (equiv_less less) outp outh /\
    ((forall x y, equiv_less less x y -> x = y) -> outp = outh).
Proof.
  intros Hswo Hxy Hmax.
  assert (slice_len ys = slice_len xs) as Hlen_ys
    by (unfold slice_len; by rewrite Hxy).
  destruct (push_all_heap less Hswo xs []) as (hp & Hrunp & Hhp & Hpermp);
    [by apply heap_check_correct|unfold slice_len in *; simpl; lia|].
  destruct (InitFunc_heap less Hswo ys ltac:(lia))
    as (hh & Hrunh & Hhh & Hpermh & Hlenh).
  simpl in Hpermp.
  destruct (pop_all_equiv less Hswo hp hh Hhp Hhh)
    as (outp & outh & Hpop_p & Hpop_h & Hpp & Hsp & Hsh & Heq & Htot);
    [by rewrite Hpermp, Hpermh
    |unfold slice_len in *; rewrite Hpermp; lia|].
  exists outp, outh.
  unfold push_then_pop_all, heapify_then_pop_all, bind.
  rewrite Hrunp, Hrunh. split; [done|]. split; [done|].
  split; [by rewrite Hpp|]. split; [|done].
  destruct (pop_all_sorted less Hswo hh Hhh ltac:(lia)) as (o & Ho & Hperm_o & _).
  rewrite Hpop_h in Ho. injection Ho as <-. by rewrite Hperm_o.
Qed.

Lemma push_pop_as_heapify_pop_witness :
  exists outp outh,
    push_then_pop_all Z.ltb [3; 1; 4; 1; 5] [] = Returns outp [] /\
    heapify_then_pop_all Z.ltb [5; 1; 4; 1; 3] = Returns outh [] /\
    outp ≡ₚ [3; 1; 4; 1; 5] /\ outh ≡ₚ [5; 1; 4; 1; 3] /\
    nondecreasing Z.ltb outp /\ nondecreasing Z.ltb outh /\
    Forall2 (equiv_less Z.ltb) outp outh /\
    ((forall x y, equiv_less Z.ltb x y -> x = y) -> outp = outh).
Proof.
  apply (push_pop_as_heapify_pop Z.ltb [3; 1; 4; 1; 5] [5; 1; 4; 1; 3] Zltb_swo);
    [exact (Permutation_rev [3; 1; 4; 1; 5])|concrete].
Defined.

(** C8 as stated fails: under an ordering with ties between distinct
    values, pushing and heapifying the same values in the same order pop
    the tied values in different orders. *)
Lemma push_vs_heapify_ties :
  StrictWeakOrder by_key /\
  push_then_pop_all by_key [(1, 0); (1, 1); (0, 2); (0, 3)] [] <>
  heapify_then_pop_all by_key [(1, 0); (1, 1); (0, 2); (0, 3)].
Proof.
  split; [exact by_key_swo|]. intros Heq. vm_compute in Heq. discriminate Heq.
Qed.

(** C9. [InitFunc] is idempotent: calling it twice in a row leaves the
    slice exactly as calling it once does, and on a slice whose invariant
    already holds it leaves every element where it is. *)
Theorem heapify_idempotent {T : Type} (less : T -> T -> bool) (h : list T) :
  StrictWeakOrder less -> slice_len h <= GoInt.max_int ->
  bind (InitFunc less) (fun _ => InitFunc less) h = InitFunc less h /\
  (heap_inv less h -> InitFunc less h = Returns tt h).
Proof.
  intros Hswo Hmax.
  assert (forall h1 : list T, slice_len h1 <= GoInt.max_int ->
            heap_inv less h1 -> InitFunc less h1 = Returns tt h1) as Hid.
  { intros h1 Hmax1 Hh1.
    destruct (InitFunc_run less h1 Hmax1) as (h' & Hrun & Hrel).
    apply init_sift_heap_id in Hrel; [by subst|by apply heap_inv_from]. }
  split; [|by apply Hid].
  destruct (InitFunc_heap less Hswo h Hmax) as (h' & Hrun & Hh' & _ & Hlen).
  unfold bind. rewrite Hrun. apply Hid; [lia|done].
Qed.

Lemma heapify_idempotent_witness :
  bind (InitFunc Z.ltb) (fun _ => InitFunc Z.ltb) [5; 2; 8; 1; 9; 3]
  = InitFunc Z.ltb [5; 2; 8; 1; 9; 3] /\
  InitFunc Z.ltb [1; 3; 2] = Returns tt [1; 3; 2].
Proof.
  split.
  - apply (heapify_idempotent Z.ltb [5; 2; 8; 1; 9; 3] Zltb_swo). concrete.
  - apply (heapify_idempotent Z.ltb [1; 3; 2] Zltb_swo); concrete.
Defined.

(** C10. On a non-empty slice and for any comparison function,
    [PopFunc] and [RemoveFunc] at index 0 return the same value and leave
    the same slice. *)
Theorem pop_is_remove_at_0 {T : Type} (less : T -> T -> bool) (h : list T) :
  0 < slice_len h <= GoInt.max_int ->
  PopFunc less h = RemoveFunc less 0 h.
Proof. apply PopFunc_RemoveFunc_0. Qed.

Lemma pop_is_remove_at_0_witness :
  PopFunc Z.ltb [1; 3; 2; 4] = RemoveFunc Z.ltb 0 [1; 3; 2; 4].
Proof.
  apply (pop_is_remove_at_0 Z.ltb [1; 3; 2; 4]). concrete.
Defined.

(** ** The loop budget never runs out *)

(** On a slice that fits an [int] (with room for one more element, for
    [PushFunc]) and for any [int] index, each public operation returns or
    panics. *)
Lemma operations_total {T : Type} (less : T -> T -> bool) (h : list T) (i : Z) (x : T) :
  slice_len h < GoInt.max_int -> GoInt.in_int i ->
  InitFunc less h <> OutOfFuel /\
  PushFunc less x h <> OutOfFuel /\
  PopFunc less h <> OutOfFuel /\
  RemoveFunc less i h <> OutOfFuel /\
  FixFunc less i h <> OutOfFuel.
Proof.
  intros Hmax Hint.
  assert (RemoveFunc less i h <> OutOfFuel /\ FixFunc less i h <> OutOfFuel)
    as [Hremove Hfix].
  { destruct (Z.lt_ge_cases i 0) as [Hneg|Hpos];
      [|destruct (Z.lt_ge_cases i (slice_len h)) as [Hlt|Hge]].
    - rewrite RemoveFunc_out_of_range, FixFunc_out_of_range by (done || lia).
      split; [done|by case_match].
    - destruct (RemoveFunc_run less h i) as (? & ? & ? & _ & _ & -> & _); [lia|lia|].
      destruct (FixFunc_run less h i) as (? & -> & _); [lia|lia|done].
    - rewrite RemoveFunc_out_of_range, FixFunc_out_of_range by (done || lia).
      split; [done|by case_match]. }
  repeat split; [| | |done|done].
  - destruct (InitFunc_run less h) as (? & -> & _); [lia|done].
  - destruct (PushFunc_run less x h Hmax) as (? & -> & _). done.
  - destruct h as [|a h]; [done|].
    destruct (PopFunc_run less (a :: h)) as (? & ? & ? & ? & _ & _ & -> & _);
      [unfold slice_len in *; simpl in *; lia|done].
Qed.

(** ** The scenarios of the specification and of the test-suite *)

(** Heapify [5,2,8,1,9,3], then pop six times. *)
Example scenario_heapify_pop :
  bind (InitFunc Z.ltb) (fun _ => pop_n Z.ltb 6) [5; 2; 8; 1; 9; 3]
  = Returns [1; 2; 3; 5; 8; 9] [].
Proof. reflexivity. Qed.

(** Push 3,1,4,1,5 onto an empty heap, then pop all five. *)
Example scenario_push_pop :
  push_then_pop_all Z.ltb [3; 1; 4; 1; 5] [] = Returns [1; 1; 3; 4; 5] [].
Proof. reflexivity. Qed.

(** [TestRemove1]: removing index 0 from the heap [0..9] ten times
    returns 0, 1, ..., 9. *)
Example scenario_remove_first :
  remove_first_n Z.ltb 10 [0; 1; 2; 3; 4; 5; 6; 7; 8; 9]
  = Returns [0; 1; 2; 3; 4; 5; 6; 7; 8; 9] [].
Proof. reflexivity. Qed.

(** [TestRemove0]: removing the last index returns the last element
    and leaves the rest in place. *)
Example scenario_remove_last :
  RemoveFunc Z.ltb 9 [0; 1; 2; 3; 4; 5; 6; 7; 8; 9]
  = Returns 9 [0; 1; 2; 3; 4; 5; 6; 7; 8].
Proof. reflexivity. Qed.

(** [TestFix]: raising the root of a heap and calling [FixFunc] sinks
    it. *)
Example scenario_fix_root :
  fix_after_write Z.ltb 0 210 [10; 20; 30; 40] = Returns tt [20; 40; 30; 210].
Proof. reflexivity. Qed.

(** [FixFunc] at index -1 reads nothing and returns. *)
Example scenario_fix_minus_one :
  FixFunc Z.ltb (-1) [5; 2; 8] = Returns tt [5; 2; 8].
Proof. reflexivity. Qed.

(** * Further properties of the code *)

(** ** No operation loses or duplicates an element *)

Section Conservation.

Context {T : Type} (less : T -> T -> bool).
Implicit Types (h : list T) (i j k n : Z) (x y : T).

Lemma PopFunc_takes_root h :
  0 < slice_len h <= GoInt.max_int ->
  exists x h', PopFunc less h = Returns x h' /\
               at_index h 0 = Some x /\ x :: h' ≡ₚ h.
Proof.
  intros Hlen.
  destruct (PopFunc_run less h Hlen) as (x & y & h' & i' & Hx & Hy & Hrun & Hrel).
  pose proof (slice_last h y Hy) as Hsplit.
  remember (slice_len h - 1) as n eqn:En.
  exists x, h'. split; [done|]. split; [done|].
  rewrite (sift_down_perm _ _ _ _ _ _ Hrel).
  destruct (Z.eq_dec n 0) as [Hn0|Hn0].
  { rewrite Hn0 in *. simpl in Hsplit. simpl.
    assert (x = y) as -> by congruence. by rewrite Hsplit. }
  transitivity (take (Z.to_nat n) h ++ [y]); [|by rewrite <- Hsplit].
  unfold set_index. change (Z.to_nat 0) with 0%nat.
  rewrite take_insert_lt by lia.
  rewrite <- Permutation_cons_append. apply insert_head_perm.
  rewrite lookup_take_lt by lia. by rewrite <- (at_index_nat h 0).
Qed.

Lemma RemoveFunc_takes h i :
  0 <= i < slice_len h -> slice_len h <= GoInt.max_int ->
  exists x h', RemoveFunc less i h = Returns x h' /\
               at_index h i = Some x /\ x :: h' ≡ₚ h.
Proof.
  intros Hi Hmax.
  destruct (RemoveFunc_run less h i Hi Hmax) as (x & y & h3 & Hx & Hy & Hrun & Hcase).
  pose proof (slice_last h y Hy) as Hsplit.
  remember (slice_len h - 1) as n eqn:En.
  exists x, (take (Z.to_nat n) h3). split; [done|]. split; [done|].
  destruct Hcase as [[-> ->]|[Hne Hrel]].
  - assert (x = y) as -> by congruence.
    rewrite Hsplit at 2. apply Permutation_cons_append.
  - pose proof (down_then_up_len _ _ _ _ _ Hrel) as Hlen3.
    rewrite slice_len_set in Hlen3.
    assert (at_index h3 (slice_len h3 - 1) = Some y) as Hy3.
    { rewrite Hlen3, <- En.
      rewrite (down_then_up_frame _ _ _ _ _ Hrel) by lia.
      rewrite at_set_index_ne by lia. done. }
    pose proof (slice_last h3 y Hy3) as Hsplit3.
    rewrite Hlen3, <- En in Hsplit3.
    assert (take (Z.to_nat n) h3 ≡ₚ <[Z.to_nat i:=y]> (take (Z.to_nat n) h)) as Hperm.
    { apply (Permutation_app_inv_r [y]). rewrite <- Hsplit3.
      rewrite (down_then_up_perm _ _ _ _ _ Hrel).
      unfold set_index. rewrite Hsplit at 1.
      rewrite insert_app_l; [done|]. rewrite length_take_le; unfold slice_len in *; lia. }
    rewrite Hperm. transitivity (take (Z.to_nat n) h ++ [y]); [|by rewrite <- Hsplit].
    rewrite <- Permutation_cons_append. apply insert_head_perm.
    rewrite lookup_take_lt by lia. rewrite <- at_index_nat.
    by rewrite Z2Nat.id by lia.
Qed.

End Conservation.

(** X1. Whatever the comparison function does, [InitFunc], [PushFunc]
    and [FixFunc] (at an index in range) return and only rearrange:
    the resulting slice is a permutation of the elements it was given
    ([PushFunc]: of those elements and the pushed value). *)
Theorem rearranging_operations_conserve {T : Type} (less : T -> T -> bool)
    (h : list T) (x : T) :
  slice_len h < GoInt.max_int ->
  (exists h', InitFunc less h = Returns tt h' /\ h' ≡ₚ h) /\
  (exists h', PushFunc less x h = Returns tt h' /\ h' ≡ₚ h ++ [x]) /\
  (forall i, 0 <= i < slice_len h ->
   exists h', FixFunc less i h = Returns tt h' /\ h' ≡ₚ h).
Proof.
  intros Hmax. split; [|split].
  - destruct (InitFunc_run less h ltac:(lia)) as (h' & Hrun & Hrel).
    exists h'. split; [done|]. by eapply init_sift_perm.
  - destruct (PushFunc_run less x h Hmax) as (h' & Hrun & Hrel).
    exists h'. split; [done|]. by eapply sift_up_perm.
  - intros i Hi. destruct (FixFunc_run less h i Hi ltac:(lia)) as (h' & Hrun & Hrel).
    exists h'. split; [done|]. by eapply down_then_up_perm.
Qed.

Lemma rearranging_operations_conserve_witness :
  (exists h', InitFunc (fun _ _ : Z => true) [5; 2; 8] = Returns tt h' /\ h' ≡ₚ [5; 2; 8]) /\
  (exists h', PushFunc (fun _ _ : Z => true) 7 [5; 2; 8] = Returns tt h' /\
              h' ≡ₚ [5; 2; 8] ++ [7]) /\
  (exists h', FixFunc (fun _ _ : Z => true) 1 [5; 2; 8] = Returns tt h' /\
              h' ≡ₚ [5; 2; 8]).
Proof.
  destruct (rearranging_operations_conserve (fun _ _ : Z => true) [5; 2; 8] 7)
    as (Hinit & Hpush & Hfix); [concrete|].
  split; [exact Hinit|]. split; [exact Hpush|]. apply Hfix. concrete.
Defined.

(** X2. Whatever the comparison function does and whether or not the
    invariant holds, [PopFunc] on a non-empty slice returns the element
    at index 0 and [RemoveFunc] at an index in range returns the element
    at that index; the resulting slice holds the other elements, each as
    often as before. *)
Theorem removing_operations_conserve {T : Type} (less : T -> T -> bool)
    (h : list T) (i : Z) :
  0 <= i < slice_len h -> slice_len h <= GoInt.max_int ->
  (exists x h', PopFunc less h = Returns x h' /\
                at_index h 0 = Some x /\ x :: h' ≡ₚ h) /\
  (exists x h', RemoveFunc less i h = Returns x h' /\
                at_index h i = Some x /\ x :: h' ≡ₚ h).
Proof.
  intros Hi Hmax. split.
  - apply PopFunc_takes_root. lia.
  - by apply RemoveFunc_takes.
Qed.

Lemma removing_operations_conserve_witness :
  (exists x h', PopFunc (fun _ _ : Z => true) [5; 2; 8] = Returns x h' /\
                at_index [5; 2; 8] 0 = Some x /\ x :: h' ≡ₚ [5; 2; 8]) /\
  (exists x h', RemoveFunc (fun _ _ : Z => true) 1 [5; 2; 8] = Returns x h' /\
                at_index [5; 2; 8] 1 = Some x /\ x :: h' ≡ₚ [5; 2; 8]).
Proof.
  apply (removing_operations_conserve (fun _ _ : Z => true) [5; 2; 8] 1); concrete.
Defined.

(** ** What [down] and [up] report and touch *)

Lemma sift_down_moved {T : Type} (less : T -> T -> bool) n (h : list T) i h' i' :
  sift_down less n h i h' i' -> 0 <= i -> i < i' ->
  exists x y, at_index h i = Some y /\ at_index h' i = Some x /\
              less x y = true.
Proof.
  intros Hrel.
  destruct Hrel as [| |h i j x y h' i' Hc Hx Hy Hless Hrec]; intros Hi Hlt;
    [lia|lia|].
  pose proof (child_choice_range less n h i j Hi Hc) as (Hij & _).
  exists x, y. split; [done|]. split; [|done].
  rewrite (sift_down_frame _ _ _ _ _ _ Hrec) by lia.
  apply at_exchange_l; [|done]. apply at_index_Some in Hy. lia.
Qed.

(** X3. For an irreflexive comparison, [down] returns [false] exactly
    when it leaves the slice as it was; when it returns [true] the
    element at [i0] has been replaced, by a value that compares before
    it and so differs from it. *)
Theorem down_reports_move {T : Type} (less : T -> T -> bool)
    (h : list T) (i n : Z) :
  (forall x, less x x = false) ->
  0 <= i <= GoInt.max_int -> n <= slice_len h ->
  slice_len h <= GoInt.max_int ->
  exists moved h', down less i n h = Returns moved h' /\
                   (moved = false <-> h' = h) /\
                   (moved = true ->
                    at_index h' i <> at_index h i /\
                    exists x y, at_index h i = Some y /\
                                at_index h' i = Some x /\
                                less x y = true /\ x <> y).
Proof.
  intros Hirr Hi Hn Hmax.
  destruct (down_run less h i n Hi Hn Hmax) as (h' & i' & Hrun & Hrel).
  exists (i' >? i), h'. split; [done|].
  pose proof (sift_down_index _ _ _ _ _ _ Hrel ltac:(lia)) as [Hge Hsame].
  destruct (Z.gtb_spec i' i) as [Hgt|Hle].
  - destruct (sift_down_moved less n h i h' i' Hrel ltac:(lia) Hgt)
      as (x & y & Hy & Hx & Hless).
    assert (x <> y) as Hne
      by (intros ->; by rewrite Hirr in Hless).
    split.
    + split; [done|]. intros Heq. exfalso.
      rewrite Heq in Hx. congruence.
    + intros _. split; [congruence|]. exists x, y. done.
  - split; [|done]. split; [|done]. intros _. apply Hsame. lia.
Qed.

Lemma down_reports_move_witness :
  exists moved h', down Z.ltb 0 3 [5; 2; 8] = Returns moved h' /\
                   (moved = false <-> h' = [5; 2; 8]) /\
                   (moved = true ->
                    at_index h' 0 <> at_index [5; 2; 8] 0 /\
                    exists x y, at_index [5; 2; 8] 0 = Some y /\
                                at_index h' 0 = Some x /\
                                Z.ltb x y = true /\ x <> y).
Proof.
  apply (down_reports_move Z.ltb [5; 2; 8] 0 3); [apply Z.ltb_irrefl|concrete..].
Defined.

(** X4. [down(h, i0, n)] changes no element at an index below [i0] or
    from [n] on, and [up(h, j)] changes no element at an index above
    [j]. *)
Theorem down_up_untouched {T : Type} (less : T -> T -> bool)
    (h : list T) (i n j : Z) :
  0 <= i <= GoInt.max_int -> n <= slice_len h ->
  0 <= j < slice_len h -> slice_len h <= GoInt.max_int ->
  (exists moved h', down less i n h = Returns moved h' /\
     forall k, k < i \/ n <= k -> at_index h' k = at_index h k) /\
  (exists h', up less j h = Returns tt h' /\
     forall k, j < k -> at_index h' k = at_index h k).
Proof.
  intros Hi Hn Hj Hmax. split.
  - destruct (down_run less h i n Hi Hn Hmax) as (h' & i' & Hrun & Hrel).
    exists (i' >? i), h'. split; [done|].
    intros k Hk. eapply sift_down_frame; [done|lia|done].
  - destruct (up_run less h j Hj Hmax) as (h' & Hrun & Hrel).
    exists h'. split; [done|]. by eapply sift_up_frame.
Qed.

Lemma down_up_untouched_witness :
  (exists moved h', down Z.ltb 1 4 [9; 7; 8; 1; 0] = Returns moved h' /\
     forall k, k < 1 \/ 4 <= k -> at_index h' k = at_index [9; 7; 8; 1; 0] k) /\
  (exists h', up Z.ltb 3 [9; 7; 8; 1; 0] = Returns tt h' /\
     forall k, 3 < k -> at_index h' k = at_index [9; 7; 8; 1; 0] k).
Proof.
  apply (down_up_untouched Z.ltb [9; 7; 8; 1; 0] 1 4 3); concrete.
Defined.

(** X5. The overflow guard of [down]: for an index in the upper half of
    the [int] range, [2*i + 1] wraps to a negative number, and [down]
    returns [false] at once, whatever the bound and the slice are,
    without reading an element. *)
Theorem down_overflow_guard {T : Type} (less : T -> T -> bool)
    (h : list T) (i n : Z) :
  0 <= i <= GoInt.max_int -> GoInt.max_int < 2 * i + 1 ->
  down less i n h = Returns false h.
Proof.
  intros Hi Hover. unfold down, bind. cbn [down_loop].
  destruct (left_child_int i Hi) as [[? _]|[_ Hneg]]; [lia|].
  apply Z.ltb_lt in Hneg. rewrite Hneg, orb_true_r.
  unfold ret. by rewrite Z.gtb_ltb, Z.ltb_irrefl.
Qed.

Lemma down_overflow_guard_witness :
  down Z.ltb 4611686018427387904 3 [5; 2; 8] = Returns false [5; 2; 8].
Proof.
  apply (down_overflow_guard Z.ltb [5; 2; 8] 4611686018427387904 3); concrete.
Defined.

(** ** Calls that move nothing *)

Section NoMove.

Context {T : Type} (less : T -> T -> bool).
Implicit Types (h l : list T) (i j k n : Z) (x y : T).

Lemma sift_up_heap_id n h j h' :
  sift_up less h j h' -> j < n -> heap_from less 0 n h -> h' = h.
Proof.
  intros Hrel.
  destruct Hrel as [| |h j x y h' Hj Hx Hy Hless Hrec]; intros Hjn Hh;
    [done|done|].
  assert (less x y = false) as Hok; [|congruence].
  apply (Hh j); [lia|pose proof (parent_lt j Hj); lia|done|done].
Qed.

Lemma nondecreasing_heap h : nondecreasing less h -> heap_inv less h.
Proof.
  intros Hs i p Hp c x Hc Hx.
  apply at_index_Some in Hp as Hi. apply at_index_Some in Hx as Hcr.
  unfold at_index in Hp, Hx.
  destruct (Z.ltb_spec i 0); [lia|]. destruct (Z.ltb_spec c 0); [lia|].
  apply (Hs (Z.to_nat i) (Z.to_nat c) p x); [lia|done|done].
Qed.

Lemma nondecreasing_app_l l1 l2 :
  nondecreasing less (l1 ++ l2) -> nondecreasing less l1.
Proof.
  intros Hs i j x y Hij Hx Hy.
  apply (Hs i j x y Hij); by apply lookup_app_l_Some.
Qed.

Lemma PushFunc_in_order h x :
  slice_len h < GoInt.max_int -> heap_inv less (h ++ [x]) ->
  PushFunc less x h = Returns tt (h ++ [x]).
Proof.
  intros Hmax Hh. destruct (PushFunc_run less x h Hmax) as (h' & Hrun & Hrel).
  apply (sift_up_heap_id (slice_len h + 1)) in Hrel; [by subst|lia|].
  apply heap_inv_from in Hh. by rewrite slice_len_app in Hh.
Qed.

Lemma push_all_in_order xs : forall h,
  nondecreasing less (h ++ xs) -> slice_len (h ++ xs) <= GoInt.max_int ->
  push_all less xs h = Returns tt (h ++ xs).
Proof.
  induction xs as [|x xs IH]; intros h Hs Hmax.
  - by rewrite app_nil_r.
  - rewrite cons_middle, app_assoc in Hs, Hmax.
    cbn [push_all]. unfold bind.
    rewrite PushFunc_in_order.
    + rewrite IH; [|done|done]. by rewrite <- app_assoc.
    + unfold slice_len in *. rewrite !length_app in Hmax. simpl in Hmax. lia.
    + apply nondecreasing_heap. by eapply nondecreasing_app_l.
Qed.

End NoMove.

(** X6. [FixFunc] at an index in range of a slice whose invariant holds
    (the element did not change, or changed to a value that is still in
    order) moves nothing and returns the slice as it was, for any
    comparison function. *)
Theorem FixFunc_intact_heap {T : Type} (less : T -> T -> bool) (h : list T) (i : Z) :
  0 <= i < slice_len h -> slice_len h <= GoInt.max_int -> heap_inv less h ->
  FixFunc less i h = Returns tt h.
Proof.
  intros Hi Hmax Hh. apply heap_inv_from in Hh.
  destruct (FixFunc_run less h i Hi Hmax) as (h' & Hrun & h2 & i2 & Hd & Hcase).
  rewrite Hrun. f_equal.
  destruct (sift_down_heap_id less 0 (slice_len h) h i h2 i2 Hd) as [-> ->];
    [lia|lia|done|].
  destruct Hcase as [[? _]|[_ Hu]]; [lia|].
  by apply (sift_up_heap_id less (slice_len h)) in Hu; [|lia|].
Qed.

Lemma FixFunc_intact_heap_witness :
  FixFunc Z.ltb 1 [1; 3; 2; 4] = Returns tt [1; 3; 2; 4].
Proof.
  apply (FixFunc_intact_heap Z.ltb [1; 3; 2; 4] 1); concrete.
Defined.

(** X7. [RemoveFunc] at the last index compares nothing: it returns the
    last element and leaves the elements before it where they are, for
    any slice and any comparison function. Appending a value and removing
    the last index gives the slice back. *)
Theorem RemoveFunc_last {T : Type} (less : T -> T -> bool) (h : list T) (x : T) :
  slice_len h < GoInt.max_int ->
  RemoveFunc less (slice_len h) (h ++ [x]) = Returns x h.
Proof.
  intros Hmax. pose proof (slice_len_nonneg h) as Hpos.
  destruct (RemoveFunc_run less (h ++ [x]) (slice_len h))
    as (x' & y & h3 & Hx & Hy & Hrun & Hcase);
    [rewrite slice_len_app; lia|rewrite slice_len_app; lia|].
  rewrite slice_len_app in *.
  replace (slice_len h + 1 - 1) with (slice_len h) in * by lia.
  assert (at_index (h ++ [x]) (slice_len h) = Some x) as Hlast.
  { unfold at_index, slice_len. destruct (Z.ltb_spec (Z.of_nat (length h)) 0); [lia|].
    rewrite Nat2Z.id. apply list_lookup_middle. done. }
  assert (x' = x) as -> by congruence.
  destruct Hcase as [[_ ->]|[? _]]; [|lia].
  rewrite Hrun. f_equal. unfold slice_len. rewrite Nat2Z.id.
  apply take_app_length.
Qed.

Lemma RemoveFunc_last_witness :
  RemoveFunc (fun _ _ : Z => true) (slice_len [5; 2; 8]) ([5; 2; 8] ++ [7])
  = Returns 7 [5; 2; 8].
Proof.
  apply (RemoveFunc_last (fun _ _ : Z => true) [5; 2; 8] 7). concrete.
Defined.

(** X8. A slice in non-decreasing order already satisfies the
    invariant: [InitFunc] returns it as it is, and pushing its values in
    order onto an empty slice rebuilds it element for element. *)
Theorem sorted_slice_is_heap {T : Type} (less : T -> T -> bool) (h : list T) :
  nondecreasing less h -> slice_len h <= GoInt.max_int ->
  heap_inv less h /\
  InitFunc less h = Returns tt h /\
  push_all less h [] = Returns tt h.
Proof.
  intros Hs Hmax. pose proof (nondecreasing_heap less h Hs) as Hh.
  split; [done|]. split.
  - destruct (InitFunc_run less h Hmax) as (h' & Hrun & Hrel).
    apply init_sift_heap_id in Hrel; [by subst|by apply heap_inv_from].
  - by apply (push_all_in_order less h []).
Qed.

Lemma sorted_slice_is_heap_witness :
  heap_inv Z.ltb [0; 1; 2; 3; 4; 5; 6; 7; 8; 9] /\
  InitFunc Z.ltb [0; 1; 2; 3; 4; 5; 6; 7; 8; 9]
  = Returns tt [0; 1; 2; 3; 4; 5; 6; 7; 8; 9] /\
  push_all Z.ltb [0; 1; 2; 3; 4; 5; 6; 7; 8; 9] []
  = Returns tt [0; 1; 2; 3; 4; 5; 6; 7; 8; 9].
Proof.
  apply (sorted_slice_is_heap Z.ltb [0; 1; 2; 3; 4; 5; 6; 7; 8; 9]); [|concrete].
  intros i j x y Hij Hx Hy.
  assert (x < y) as Hlt; [|apply Z.ltb_ge; lia].
  do 10 (destruct i as [|i]; [do 11 (destruct j as [|j]; [simplify_eq/=; lia|]);
                               simplify_eq/=|]).
  destruct i; simplify_eq/=.
Defined.

(** X9. Removing at any sequence of indices, each in range at the time
    of its call, returns as many values as there were calls, and the
    returned values and the remaining slice together are the original
    elements; when as many indices as elements were removed, the slice is
    empty and the returned values are a permutation of the original
    elements. This holds for any comparison function. *)
Theorem remove_each_conserves {T : Type} (less : T -> T -> bool) (idx : list Z) :
  forall h : list T,
  indices_in_range idx (slice_len h) -> slice_len h <= GoInt.max_int ->
  exists out h', remove_each less idx h = Returns out h' /\
                 out ++ h' ≡ₚ h /\ length out = length idx /\
                 (length idx = length h -> h' = [] /\ out ≡ₚ h).
Proof.
  assert (forall h : list T,
    indices_in_range idx (slice_len h) -> slice_len h <= GoInt.max_int ->
    exists out h', remove_each less idx h = Returns out h' /\
                   out ++ h' ≡ₚ h /\ length out = length idx) as Hmain.
  { induction idx as [|i idx IH]; intros h Hidx Hmax.
    - exists [], h. done.
    - destruct Hidx as [Hi Hidx].
      destruct (RemoveFunc_takes less h i Hi Hmax) as (x & h1 & Hrun & _ & Hperm).
      assert (slice_len h1 = slice_len h - 1) as Hlen1.
      { apply Permutation_length in Hperm. unfold slice_len. simpl in Hperm. lia. }
      destruct (IH h1) as (out & h' & Hrun' & Hperm' & Hlen');
        [by rewrite Hlen1|lia|].
      exists (x :: out), h'. cbn [remove_each]. unfold bind at 1. rewrite Hrun.
      unfold bind at 1. rewrite Hrun'. split; [done|]. split.
      + simpl. by rewrite Hperm'.
      + simpl. by rewrite Hlen'. }
  intros h Hidx Hmax.
  destruct (Hmain h Hidx Hmax) as (out & h' & Hrun & Hperm & Hlen).
  exists out, h'. repeat (split; [done|]).
  intros Hall. apply Permutation_length in Hperm as Hl. rewrite length_app in Hl.
  assert (h' = []) as -> by (destruct h'; [done|simpl in Hl; lia]).
  split; [done|]. by rewrite app_nil_r in Hperm.
Qed.

Lemma remove_each_conserves_witness :
  exists out h', remove_each Z.ltb [1; 0; 1; 0] [1; 3; 2; 4] = Returns out h' /\
                 out ++ h' ≡ₚ [1; 3; 2; 4] /\ length out = length [1; 0; 1; 0] /\
                 (length [1; 0; 1; 0] = length [1; 3; 2; 4] ->
                  h' = [] /\ out ≡ₚ [1; 3; 2; 4]).
Proof.
  apply (remove_each_conserves Z.ltb [1; 0; 1; 0] [1; 3; 2; 4]); [|concrete].
  simpl. unfold slice_len. simpl. lia.
Defined.

(** ** The wrappers at the natural ordering *)

Lemma cmp_Less_swo : StrictWeakOrder Ordered.cmp_Less.
Proof. exact Zltb_swo. Qed.

Lemma cmp_Less_total x y : equiv_less Ordered.cmp_Less x y -> x = y.
Proof. exact (Zltb_total x y). Qed.

Lemma Pop_n_pop_n k : forall h, Ordered.Pop_n k h = pop_n Ordered.cmp_Less k h.
Proof.
  induction k as [|k IH]; intros h; [done|].
  cbn [Ordered.Pop_n pop_n]. unfold bind at 1 3, Ordered.Pop.
  destruct (PopFunc Ordered.cmp_Less h) as [x h'| |]; [|done|done].
  unfold bind. by rewrite IH.
Qed.

Lemma Pop_all_pop_all h : Ordered.Pop_all h = pop_all Ordered.cmp_Less h.
Proof. apply Pop_n_pop_n. Qed.

Lemma Push_each_push_all xs : forall h,
  Ordered.Push_each xs h = push_all Ordered.cmp_Less xs h.
Proof.
  induction xs as [|x xs IH]; intros h; [done|].
  cbn [Ordered.Push_each push_all]. unfold bind, Ordered.Push.
  destruct (PushFunc Ordered.cmp_Less x h) as [? h'| |]; [|done|done].
  apply IH.
Qed.

(** Popping everything from a heap of integers returns the ascending
    arrangement of its elements. *)
Lemma Pop_all_ascending (h l : list Z) :
  heap_inv Ordered.cmp_Less h -> h ≡ₚ l ->
  nondecreasing Ordered.cmp_Less l -> slice_len h <= GoInt.max_int ->
  Ordered.Pop_all h = Returns l [].
Proof.
  intros Hh Hperm Hl Hmax. rewrite Pop_all_pop_all.
  destruct (pop_all_sorted Ordered.cmp_Less cmp_Less_swo h Hh Hmax)
    as (out & Hrun & Hperm' & Hs).
  rewrite Hrun. f_equal.
  apply (Forall2_equiv_eq Ordered.cmp_Less); [apply cmp_Less_total|].
  apply (sorted_perm_equiv Ordered.cmp_Less cmp_Less_swo); [done|done|].
  by rewrite Hperm'.
Qed.

(** X10. At the natural ordering of integers, heapifying a slice with
    [Init] and popping everything with [Pop], and pushing its values one
    by one with [Push] onto an empty slice and popping everything, both
    return exactly the ascending arrangement of the values, and leave
    the slice empty. *)
Theorem natural_order_sorts (h l : list Z) :
  h ≡ₚ l -> nondecreasing Ordered.cmp_Less l ->
  slice_len h <= GoInt.max_int ->
  bind Ordered.Init (fun _ => Ordered.Pop_all) h = Returns l [] /\
  bind (Ordered.Push_each h) (fun _ => Ordered.Pop_all) [] = Returns l [].
Proof.
  intros Hperm Hl Hmax. split.
  - destruct (InitFunc_heap Ordered.cmp_Less cmp_Less_swo h Hmax)
      as (h' & Hrun & Hh' & Hperm' & Hlen).
    unfold bind, Ordered.Init. rewrite Hrun.
    apply Pop_all_ascending; [done|by rewrite Hperm'|done|lia].
  - destruct (push_all_heap Ordered.cmp_Less cmp_Less_swo h [])
      as (h' & Hrun & Hh' & Hperm');
      [by apply heap_check_correct|unfold slice_len in *; simpl; lia|].
    simpl in Hperm'.
    unfold bind. rewrite Push_each_push_all, Hrun.
    apply Pop_all_ascending; [done|by rewrite Hperm'|done|].
    unfold slice_len in *. by rewrite Hperm'.
Qed.

Lemma natural_order_sorts_witness :
  bind Ordered.Init (fun _ => Ordered.Pop_all) [3; 1; 2] = Returns [1; 2; 3] [] /\
  bind (Ordered.Push_each [3; 1; 2]) (fun _ => Ordered.Pop_all) []
  = Returns [1; 2; 3] [].
Proof.
  apply (natural_order_sorts [3; 1; 2] [1; 2; 3]); [| |concrete].
  - rewrite (Permutation_cons_append [1; 2] 3). done.
  - intros i j x y Hij Hx Hy. unfold Ordered.cmp_Less.
    assert (x < y) as Hlt; [|apply Z.ltb_ge; lia].
    do 3 (destruct i as [|i]; [do 4 (destruct j as [|j]; [simplify_eq/=; lia|]);
                                simplify_eq/=|]).
    destruct i; simplify_eq/=.
Defined.

(** X11. At the natural ordering of integers, the doc comment of [Fix]
    holds to the letter: on a slice whose invariant holds, overwriting
    [h[i]] and calling [Fix] is equivalent to [Remove] at [i] followed by
    [Push] of the new value, in that both leave heaps from which [Pop]
    returns exactly the same sequence of values. *)
Theorem Fix_as_Remove_then_Push (h : list Z) (i v : Z) :
  0 <= i < slice_len h -> slice_len h <= GoInt.max_int ->
  heap_inv Ordered.cmp_Less h ->
  exists hf hr out,
    bind (assign i v) (fun _ => Ordered.Fix i) h = Returns tt hf /\
    bind (Ordered.Remove i) (fun _ => Ordered.Push v) h = Returns tt hr /\
    heap_inv Ordered.cmp_Less hf /\ heap_inv Ordered.cmp_Less hr /\
    Ordered.Pop_all hf = Returns out [] /\
    Ordered.Pop_all hr = Returns out [].
Proof.
  intros Hi Hmax Hh.
  destruct (fix_after_write_heap Ordered.cmp_Less cmp_Less_swo h i v Hi Hmax Hh)
    as (hf & Hrunf & Hhf & Hpermf & Hlenf).
  destruct (remove_then_push_heap Ordered.cmp_Less cmp_Less_swo h i v Hi Hmax Hh)
    as (hr & Hrunr & Hhr & Hpermr & Hlenr).
  destruct (pop_all_equiv Ordered.cmp_Less cmp_Less_swo hf hr Hhf Hhr)
    as (outf & outr & Hpf & Hpr & _ & _ & _ & _ & Heq);
    [by rewrite Hpermf, Hpermr|lia|].
  rewrite <- (Heq cmp_Less_total) in Hpr.
  exists hf, hr, outf. rewrite !Pop_all_pop_all. done.
Qed.

Lemma Fix_as_Remove_then_Push_witness :
  exists hf hr out,
    bind (assign 1 0) (fun _ => Ordered.Fix 1) [1; 3; 2; 4] = Returns tt hf /\
    bind (Ordered.Remove 1) (fun _ => Ordered.Push 0) [1; 3; 2; 4] = Returns tt hr /\
    heap_inv Ordered.cmp_Less hf /\ heap_inv Ordered.cmp_Less hr /\
    Ordered.Pop_all hf = Returns out [] /\
    Ordered.Pop_all hr = Returns out [].
Proof.
  apply (Fix_as_Remove_then_Push [1; 3; 2; 4] 1 0); concrete.
Defined.

(** ** The test-suite's [verify] *)

Section Verify.

Context {T : Type} (less : T -> T -> bool).
Implicit Types (h : list T) (i j c n : Z) (x y : T).

Lemma below_ge i c : below i c -> 0 <= i -> i <= c.
Proof. induction 1; lia. Qed.

Lemma below_child i c :
  below (2 * i + 1) c \/ below (2 * i + 2) c -> below i c.
Proof.
  intros [H|H]; induction H; try (by constructor).
  - apply below_left, below_self.
  - apply below_right, below_self.
Qed.

Lemma below_inv i c :
  below i c -> c = i \/ below (2 * i + 1) c \/ below (2 * i + 2) c.
Proof.
  induction 1 as [|c Hc IH|c Hc IH]; [by left|right|right].
  - destruct IH as [->|[IH|IH]]; [left; constructor|left|right];
      by constructor.
  - destruct IH as [->|[IH|IH]]; [right; constructor|left|right];
      by constructor.
Qed.

Lemma below_root c : 0 <= c -> below 0 c.
Proof.
  intros Hc. pattern c. apply Zlt_0_ind; [|done]. clear c Hc.
  intros c IH Hc. destruct (Z.eq_dec c 0) as [->|Hne]; [constructor|].
  pose proof (parent_lt c ltac:(lia)) as Hp.
  assert (c = 2 * parent c + 1 \/ c = 2 * parent c + 2) as [Hl|Hr]
    by (apply parent_children; [lia|split; [done|lia]]).
  - rewrite Hl. apply below_left, IH. lia.
  - rewrite Hr. apply below_right, IH. lia.
Qed.

Lemma subtree_ok_root h : subtree_ok less h 0 <-> heap_inv less h.
Proof.
  split.
  - intros Hok i p Hp. apply (Hok i p); [|done].
    apply below_root. apply at_index_Some in Hp. lia.
  - intros Hh c p _ Hp. by apply (Hh c p).
Qed.

Lemma subtree_ok_out h i : 0 <= i -> slice_len h <= i -> subtree_ok less h i.
Proof.
  intros Hi Hlen c p Hc Hp. apply below_ge in Hc; [|done].
  apply at_index_Some in Hp. lia.
Qed.

Lemma subtree_ok_unfold h i :
  subtree_ok less h i <->
  (forall p d x, at_index h i = Some p -> d = 2 * i + 1 \/ d = 2 * i + 2 ->
                 at_index h d = Some x -> less x p = false) /\
  subtree_ok less h (2 * i + 1) /\ subtree_ok less h (2 * i + 2).
Proof.
  split.
  - intros Hok. split; [|split].
    + intros p d x Hp Hd Hx. by apply (Hok i p (below_self i) Hp d x).
    + intros c p Hc. apply Hok, below_child. by left.
    + intros c p Hc. apply Hok, below_child. by right.
  - intros (Hroot & Hleft & Hright) c p Hc Hp d x Hd Hx.
    apply below_inv in Hc as [->|[Hc|Hc]].
    + by apply (Hroot p d x).
    + by apply (Hleft c p Hc Hp d x).
    + by apply (Hright c p Hc Hp d x).
Qed.

Lemma child_int i :
  0 <= i -> 2 * i + 2 <= GoInt.max_int ->
  GoInt.add (GoInt.mul 2 i) 1 = 2 * i + 1 /\
  GoInt.add (GoInt.mul 2 i) 2 = 2 * i + 2.
Proof.
  intros Hi Hmax. rewrite max_int_value in Hmax.
  unfold GoInt.add, GoInt.mul.
  rewrite (wrap_small (2 * i))
    by (unfold GoInt.in_int; rewrite max_int_value, min_int_value; lia).
  split; apply wrap_small; unfold GoInt.in_int;
    rewrite max_int_value, min_int_value; lia.
Qed.

Lemma verify_from_spec fuel : forall i errs h,
  0 <= i -> 2 * slice_len h <= GoInt.max_int ->
  i < slice_len h \/ i = 0 ->
  (Z.to_nat (slice_len h - i) < fuel)%nat ->
  exists e, verify_from less fuel i errs h = Returns e h /\
            (errs <= e)%nat /\ (e = errs <-> subtree_ok less h i).
Proof.
  induction fuel as [|fuel IH]; intros i errs h Hi Hmax Hin Hfuel; [lia|].
  pose proof (slice_len_nonneg h) as Hpos.
  assert (2 <= GoInt.max_int) as Htwo by (rewrite max_int_value; lia).
  destruct (child_int i Hi ltac:(lia)) as [Hj1 Hj2].
  cbn [verify_from]. rewrite Hj1, Hj2. unfold bind at 1, len.
  pose proof (subtree_ok_unfold h i) as Hunf.
  destruct (Z.ltb_spec (2 * i + 1) (slice_len h)) as [Hlt1|Hge1].
  - destruct (at_index_is_Some h i ltac:(lia)) as [p Hp].
    destruct (at_index_is_Some h (2 * i + 1) ltac:(lia)) as [a Ha].
    unfold bind at 1. unfold bind at 1. rewrite (index_Returns _ _ _ Ha).
    unfold bind at 1. rewrite (index_Returns _ _ _ Hp).
    destruct (less a p) eqn:Hap.
    { exists (S errs). split; [done|]. split; [lia|]. rewrite Hunf. split; [lia|].
      intros (Hroot & _). rewrite (Hroot p (2 * i + 1) a) in Hap by auto. done. }
    destruct (IH (2 * i + 1) errs h) as (e1 & Hrun1 & Hle1 & Hok1);
      [lia|done|lia|lia|].
    unfold bind at 1. rewrite Hrun1. unfold ret at 1.
    destruct (Z.ltb_spec (2 * i + 2) (slice_len h)) as [Hlt2|Hge2].
    + destruct (at_index_is_Some h (2 * i + 2) ltac:(lia)) as [b Hb].
      unfold bind at 1. rewrite (index_Returns _ _ _ Hb).
      unfold bind at 1. rewrite (index_Returns _ _ _ Hp).
      destruct (less b p) eqn:Hbp.
      { exists (S e1). split; [done|]. split; [lia|]. rewrite Hunf. split; [lia|].
        intros (Hroot & _). rewrite (Hroot p (2 * i + 2) b) in Hbp by auto. done. }
      destruct (IH (2 * i + 2) e1 h) as (e2 & Hrun2 & Hle2 & Hok2);
        [lia|done|lia|lia|].
      exists e2. split; [done|]. split; [lia|]. rewrite Hunf. split.
      * intros He. split; [|split; [apply Hok1; lia|apply Hok2; lia]].
        intros p' d x Hp' [-> | ->] Hx;
          assert (p' = p) as -> by congruence; congruence.
      * intros (_ & Hl & Hr). apply Hok1 in Hl. apply Hok2 in Hr. lia.
    + exists e1. split; [done|]. split; [lia|]. rewrite Hunf. split.
      * intros He. split; [|split; [apply Hok1; lia|apply subtree_ok_out; lia]].
        intros p' d x Hp' [-> | ->] Hx.
        -- assert (p' = p) as -> by congruence. congruence.
        -- apply at_index_Some in Hx. lia.
      * intros (_ & Hl & _). by apply Hok1.
  - unfold ret at 1.
    destruct (Z.ltb_spec (2 * i + 2) (slice_len h)) as [Hlt2|Hge2]; [lia|].
    exists errs. split; [done|]. split; [lia|]. rewrite Hunf. split; [|done].
    intros _. split; [|split; apply subtree_ok_out; lia].
    intros p' d x Hp' [-> | ->] Hx; apply at_index_Some in Hx; lia.
Qed.

End Verify.

(** X12. The test-suite's [verify(h, t, 0)] is a faithful oracle: on a
    slice of at most half the [int] range it returns without a panic,
    leaves the slice as it is, and reports no error exactly when the heap
    invariant holds on the whole slice (its early return after a reported
    violation never hides the only violation). *)
Theorem verify_checks_invariant {T : Type} (less : T -> T -> bool) (h : list T) :
  2 * slice_len h <= GoInt.max_int ->
  exists errs, verify less 0 h = Returns errs h /\
               (errs = 0%nat <-> heap_inv less h).
Proof.
  intros Hmax. pose proof (slice_len_nonneg h) as Hpos.
  destruct (verify_from_spec less (S (length h)) 0 0%nat h)
    as (e & Hrun & _ & Hok); [lia|done|by right|unfold slice_len; lia|].
  exists e. split; [done|]. by rewrite <- subtree_ok_root.
Qed.

Lemma verify_checks_invariant_witness :
  exists errs, verify Z.ltb 0 [1; 3; 2; 0] = Returns errs [1; 3; 2; 0] /\
               (errs = 0%nat <-> heap_inv Z.ltb [1; 3; 2; 0]).
Proof.
  apply (verify_checks_invariant Z.ltb [1; 3; 2; 0]). concrete.
Defined.

(** ** Sequences of calls *)

Section Sequences.

Context {T : Type} (less : T -> T -> bool).
Implicit Types (h : list T) (i : Z) (x v : T).

Lemma pop_n_exhaust (n : nat) : forall h (k : nat),
  length h = n -> (n < k)%nat -> slice_len h <= GoInt.max_int ->
  pop_n less k h = Panics [].
Proof.
  induction n as [|n IH]; intros h k Hn Hk Hmax.
  - destruct h; [|done]. destruct k as [|k]; [lia|]. done.
  - destruct k as [|k]; [lia|].
    destruct (PopFunc_takes_root less h) as (x & h' & Hrun & _ & Hperm);
      [unfold slice_len in *; lia|].
    apply Permutation_length in Hperm as Hlen. simpl in Hlen.
    cbn [pop_n]. unfold bind at 1. rewrite Hrun.
    unfold bind. rewrite (IH h' k); [done|lia|lia|unfold slice_len in *; lia].
Qed.

Hypothesis Hswo : StrictWeakOrder less.

Lemma run_op_heap (o : op) h :
  heap_inv less h -> slice_len h < GoInt.max_int ->
  exists h', (run_op less o h = Returns tt h' \/ run_op less o h = Panics h') /\
             heap_inv less h' /\ slice_len h' <= slice_len h + 1.
Proof.
  intros Hh Hmax. pose proof (slice_len_nonneg h) as Hpos.
  destruct o as [|x| |i|i v]; cbn [run_op].
  - destruct (InitFunc_heap less Hswo h ltac:(lia)) as (h' & Hrun & Hh' & _ & Hlen).
    exists h'. split; [by left|]. split; [done|lia].
  - destruct (PushFunc_heap less Hswo x h Hmax Hh) as (h' & Hrun & Hh' & _ & Hlen).
    exists h'. split; [by left|]. split; [done|lia].
  - destruct h as [|a h].
    { exists []. split; [by right|]. split; [done|lia]. }
    destruct (PopFunc_heap less Hswo (a :: h)) as (x & h' & Hrun & _ & _ & Hh' & _ & Hlen);
      [unfold slice_len in *; simpl in *; lia|done|].
    exists h'. unfold bind. rewrite Hrun. split; [by left|]. split; [done|lia].
  - destruct (Z.lt_ge_cases i 0) as [Hneg|Hge];
      [|destruct (Z.lt_ge_cases i (slice_len h)) as [Hlt|Hge']].
    + exists h. unfold bind. rewrite RemoveFunc_out_of_range by lia.
      split; [by right|]. split; [done|lia].
    + destruct (RemoveFunc_heap less Hswo h i) as (x & h' & Hrun & _ & Hh' & _ & Hlen);
        [lia|lia|done|].
      exists h'. unfold bind. rewrite Hrun. split; [by left|]. split; [done|lia].
    + exists h. unfold bind. rewrite RemoveFunc_out_of_range by lia.
      split; [by right|]. split; [done|lia].
  - destruct (at_index h i) as [y|] eqn:Hy.
    + apply at_index_Some in Hy as Hi.
      destruct (fix_after_write_heap less Hswo h i v Hi ltac:(lia) Hh)
        as (h' & Hrun & Hh' & _ & Hlen).
      exists h'. split; [by left|]. split; [done|lia].
    + exists h. unfold fix_after_write, bind, assign. rewrite Hy.
      split; [by right|]. split; [done|lia].
Qed.

End Sequences.

(** X13. Any sequence of calls of the public operations, started on a
    slice whose invariant holds, ends on a slice whose invariant holds:
    either every call returned, or a call panicked (an empty [PopFunc],
    an index out of range) and the slice at that point still satisfies
    the invariant. The loop budget never runs out. *)
Theorem any_sequence_keeps_invariant {T : Type} (less : T -> T -> bool)
    (os : list (@op T)) :
  forall h : list T,
  StrictWeakOrder less -> heap_inv less h ->
  slice_len h + Z.of_nat (length os) <= GoInt.max_int ->
  exists h', (run_ops less os h = Returns tt h' \/
              run_ops less os h = Panics h') /\
             heap_inv less h'.
Proof.
  induction os as [|o os IH]; intros h Hswo Hh Hmax.
  - exists h. split; [by left|done].
  - simpl length in Hmax.
    destruct (run_op_heap less Hswo o h Hh ltac:(lia)) as (h1 & Hrun & Hh1 & Hlen).
    cbn [run_ops]. unfold bind. destruct Hrun as [-> | ->].
    + apply IH; [done|done|lia].
    + exists h1. split; [by right|done].
Qed.

Lemma any_sequence_keeps_invariant_witness :
  exists h',
    (run_ops Z.ltb [OpPush 0; OpPop; OpFix 1 9; OpRemove 5; OpInit] [1; 3; 2]
     = Returns tt h' \/
     run_ops Z.ltb [OpPush 0; OpPop; OpFix 1 9; OpRemove 5; OpInit] [1; 3; 2]
     = Panics h') /\
    heap_inv Z.ltb h'.
Proof.
  apply (any_sequence_keeps_invariant Z.ltb
           [OpPush 0; OpPop; OpFix 1 9; OpRemove 5; OpInit] [1; 3; 2] Zltb_swo);
    concrete.
Defined.

(** X14. Calling [PopFunc] more often than the slice has elements: the
    calls return until the slice is empty, and the next call panics on
    the empty slice. This holds for any comparison function. *)
Theorem pop_beyond_empty_panics {T : Type} (less : T -> T -> bool)
    (h : list T) (k : nat) :
  (length h < k)%nat -> slice_len h <= GoInt.max_int ->
  pop_n less k h = Panics [].
Proof. intros Hk Hmax. by apply (pop_n_exhaust less (length h)). Qed.

Lemma pop_beyond_empty_panics_witness :
  pop_n Z.ltb 4 [1; 3; 2] = Panics [].
Proof.
  apply (pop_beyond_empty_panics Z.ltb [1; 3; 2] 4); [simpl; lia|concrete].
Defined.

(** ** The root after a push *)

Lemma sift_up_root_choice {T : Type} (less : T -> T -> bool) (h : list T) j h' :
  sift_up less h j h' ->
  forall x r, at_index h j = Some x -> at_index h 0 = Some r ->
  at_index h' 0 = Some r \/ (at_index h' 0 = Some x /\ less x r = true).
Proof.
  induction 1 as [h|h j x0 y Hj Hx0 Hy Hless|h j x0 y h' Hj Hx0 Hy Hless Hrec IH];
    intros x r Hx Hr; [by left|by left|].
  assert (x0 = x) as -> by congruence.
  pose proof (parent_lt j Hj) as Hp.
  assert (at_index (exchange h (parent j) j) (parent j) = Some x) as Hpx.
  { apply at_exchange_l; [|done]. apply at_index_Some in Hx. lia. }
  destruct (Z.eq_dec (parent j) 0) as [Hp0|Hp0].
  - rewrite Hp0 in *. apply sift_up_root_id in Hrec. subst h'.
    right. split; [done|]. congruence.
  - apply IH; [done|]. rewrite at_exchange_other by lia. done.
Qed.

(** X15. After [PushFunc] on a non-empty slice whose invariant holds,
    index 0 holds the pushed value when it compares before the old root,
    and the old root otherwise (a tie keeps the old root). *)
Theorem push_root {T : Type} (less : T -> T -> bool) (h : list T) (x r : T) :
  StrictWeakOrder less -> heap_inv less h ->
  at_index h 0 = Some r -> slice_len h < GoInt.max_int ->
  exists h', PushFunc less x h = Returns tt h' /\
             at_index h' 0 = Some (if less x r then x else r).
Proof.
  intros Hswo Hh Hr Hmax. apply at_index_Some in Hr as Hlen.
  destruct (PushFunc_run less x h Hmax) as (h' & Hrun & Hrel).
  destruct (PushFunc_heap less Hswo x h Hmax Hh) as (h'' & Hrun' & Hh' & Hperm & Hlen').
  rewrite Hrun in Hrun'. injection Hrun' as <-.
  exists h'. split; [done|].
  assert (at_index (h ++ [x]) (slice_len h) = Some x) as Hx.
  { unfold at_index, slice_len. destruct (Z.ltb_spec (Z.of_nat (length h)) 0); [lia|].
    rewrite Nat2Z.id. by apply list_lookup_middle. }
  assert (at_index (h ++ [x]) 0 = Some r) as Hr'
    by (rewrite at_index_app_l by lia; done).
  destruct (sift_up_root_choice less _ _ _ Hrel x r Hx Hr') as [Hold|[Hnew Hless]].
  - destruct (less x r) eqn:Hxr; [|done]. exfalso.
    assert (less x r = false); [|congruence].
    assert (x ∈ h') as [k Hk]%list_elem_of_lookup by (rewrite Hperm; left).
    rewrite <- at_index_nat in Hk. apply at_index_Some in Hk as Hk'.
    apply heap_inv_from in Hh'.
    by apply (heap_root_min less Hswo (slice_len h') h' r Hh' Hold (Z.of_nat k));
      try lia.
  - by rewrite Hless.
Qed.

Lemma push_root_witness :
  exists h', PushFunc Z.ltb 0 [1; 3; 2] = Returns tt h' /\
             at_index h' 0 = Some (if Z.ltb 0 1 then 0 else 1).
Proof.
  apply (push_root Z.ltb [1; 3; 2] 0 1 Zltb_swo); [concrete|reflexivity|concrete].
Defined.
